(** * hash_table.h: an open-addressing string-keyed hash table

    Shallow embedding of [src/hash_table.h] and the properties of its
    probing, growth and iteration code.

    Conventions of the embedding.
    - [size_t] and [u_int64_t] are 64-bit unsigned integers: values of [Z]
      in [0, 2^64), every arithmetic result reduced by [wrap64].
    - A [const char *] key is either [NULL] ([None]) or points to a
      NUL-terminated byte string ([Some s]); the string [s] lists the bytes
      in memory, and, as in C, reading stops at the first NUL byte or at the
      end of [s].
    - A [void *] value is its address, [NULL] being [0].
    - The slot array is a list indexed by position; an access outside it is
      undefined behaviour in C and is the outcome [Fault] here.
    - The [while] loops of the source have no bound of their own.  Each one
      is a recursion on a budget [fuel] of loop-condition evaluations, with
      outcome [OutOfFuel] when the budget is used up.
    - [malloc], [calloc] and [strdup] may fail; a boolean argument says
      whether the call succeeds.
    - [assert(value != NULL)] on line 234 aborts the process on a null value
      unless the header is compiled with [NDEBUG].  [hashtable_set] is the
      body of the function from line 235 on, which is all that runs once the
      assertion has passed or has been compiled out; [hashtable_set_assert]
      puts the assertion in front of it, with the build as an argument.
    - [hashtable_destroy] only releases memory and has no counterpart here. *)

From stdpp Require Import base strings list list_numbers.
From Stdlib Require Import ZArith Ascii Lia.

Local Open Scope Z_scope.

(** ** Outcomes of a call *)

Inductive res (A : Type) : Type :=
| Ret (a : A)
| OutOfFuel
| Fault.
Arguments Ret {A} a.
Arguments OutOfFuel {A}.
Arguments Fault {A}.

Definition bind {A B : Type} (m : res A) (f : A -> res B) : res B :=
  match m with
  | Ret a => f a
  | OutOfFuel => OutOfFuel
  | Fault => Fault
  end.

#[global] Instance res_bind : MBind res := fun A B f m => bind m f.

(** ** Machine integers, pointers and C strings *)

Definition wrap64 (z : Z) : Z := z mod 2 ^ 64.

Definition ptr := Z.
Definition NULL : ptr := 0.

Definition byte_of (c : ascii) : Z := Z.of_N (N_of_ascii c).

(** The bytes of a C string up to its terminator. *)
Fixpoint cstr (s : string) : string :=
  match s with
  | EmptyString => EmptyString
  | String c rest => if byte_of c =? 0 then EmptyString else String c (cstr rest)
  end.

(** [strcmp]: zero when the two strings agree up to their terminators, else
    the difference of the first two bytes that differ. *)
Fixpoint strcmp (a b : string) : Z :=
  match a, b with
  | EmptyString, EmptyString => 0
  | EmptyString, String cb _ => 0 - byte_of cb
  | String ca _, EmptyString => byte_of ca
  | String ca ra, String cb rb =>
      if byte_of ca =? byte_of cb
      then (if byte_of ca =? 0 then 0 else strcmp ra rb)
      else byte_of ca - byte_of cb
  end.

(** [strdup]: a fresh copy of the bytes up to the terminator, or [NULL]. *)
Definition strdup (ok : bool) (s : string) : option string :=
  if ok then Some (cstr s) else None.

(** ** Data model *)

Definition INITIAL_CAPACITY : Z := 16.

Record HashTableEntry : Type := mkEntry {
  key : option string;
  value : ptr
}.

Record HashTable : Type := mkHashTable {
  capacity : Z;
  length : Z;
  _entries : list HashTableEntry
}.

(** The iterator's [_table] field is a pointer to the table; the table it
    points to is the [table] argument of the iterator functions. *)
Record hashtable_iterator : Type := mkIterator {
  it_key : option string;
  it_value : ptr;
  _index : Z
}.

(** [calloc]: an array of zeroed slots. *)
Definition calloc (n : Z) : list HashTableEntry :=
  replicate (Z.to_nat n) (mkEntry None NULL).

(** ** djb2 *)

Fixpoint djb2_loop (hash : Z) (key : string) : Z :=
  match key with
  | EmptyString => hash
  | String ch rest =>
      let c := byte_of ch in
      if c =? 0 then hash
      else djb2_loop (wrap64 (wrap64 (wrap64 (Z.shiftl hash 5) + hash) + c)) rest
  end.

Definition djb2_hash (key : string) : Z := djb2_loop 5381 key.

(** ** The insertion primitive *)

(** How the probing loop of [hashtable_set_entry] ends: it falls out of the
    loop at an empty slot, or returns from inside the loop after writing the
    value of an occupied slot. *)
Inductive probe_end : Type :=
| AtEmpty (index : Z)
| Wrote (stored_key : string) (entries : list HashTableEntry).

Fixpoint set_entry_loop (fuel : nat) (entries : list HashTableEntry)
    (capacity : Z) (key : string) (value : ptr) (index : Z) : res probe_end :=
  match fuel with
  | O => OutOfFuel
  | S fuel' =>
      match entries !! Z.to_nat index with
      | None => Fault
      | Some e =>
          match e with
          | mkEntry None _ => Ret (AtEmpty index)
          | mkEntry (Some ekey) _ =>
              if negb (strcmp key ekey =? 0) then
                Ret (Wrote ekey
                       (<[Z.to_nat index := mkEntry (Some ekey) value]> entries))
              else
                let index := wrap64 (index + 1) in
                let index := if capacity <=? index then 0 else index in
                set_entry_loop fuel' entries capacity key value index
          end
      end
  end.

(** Result: the returned key pointer, the slot array and the cell behind
    [p_length] ([None] when [p_length] is [NULL]). *)
Definition hashtable_set_entry (fuel : nat) (entries : list HashTableEntry)
    (capacity : Z) (key : string) (value : ptr) (p_length : option Z)
    (strdup_ok : bool)
  : res (option string * list HashTableEntry * option Z) :=
  let hash := djb2_hash key in
  let index := Z.land hash (wrap64 (capacity - 1)) in
  r ← set_entry_loop fuel entries capacity key value index;
  match r with
  | Wrote ekey entries' => Ret (Some ekey, entries', p_length)
  | AtEmpty index =>
      match p_length with
      | Some len =>
          match strdup strdup_ok key with
          | None => Ret (None, entries, p_length)
          | Some key' =>
              Ret (Some key',
                   <[Z.to_nat index := mkEntry (Some key') value]> entries,
                   Some (wrap64 (len + 1)))
          end
      | None =>
          Ret (Some key,
               <[Z.to_nat index := mkEntry (Some key) value]> entries,
               None)
      end
  end.

(** ** Growth *)

(** The [for] loop of [hashtable_expand], over the indices still to visit. *)
Fixpoint expand_loop (fuel : nat) (old_entries : list HashTableEntry)
    (indices : list Z) (new_entries : list HashTableEntry) (new_capacity : Z)
  : res (list HashTableEntry) :=
  match indices with
  | [] => Ret new_entries
  | i :: rest =>
      match old_entries !! Z.to_nat i with
      | None => Fault
      | Some entry =>
          match key entry with
          | Some ekey =>
              '(_, new_entries', _) ←
                 hashtable_set_entry fuel new_entries new_capacity ekey
                   (value entry) None false;
              expand_loop fuel old_entries rest new_entries' new_capacity
          | None => expand_loop fuel old_entries rest new_entries new_capacity
          end
      end
  end.

Definition hashtable_expand (fuel : nat) (table : HashTable) (calloc_ok : bool)
  : res (bool * HashTable) :=
  let new_capacity := wrap64 (capacity table * 2) in
  if new_capacity <? capacity table then Ret (false, table)
  else if negb calloc_ok then Ret (false, table)
  else
    new_entries ←
      expand_loop fuel (_entries table) (seqZ 0 (capacity table))
        (calloc new_capacity) new_capacity;
    Ret (true, mkHashTable new_capacity (length table) new_entries).

(** ** Public API *)

Definition hashtable_create (malloc_ok calloc_ok : bool) : option HashTable :=
  if negb malloc_ok then None
  else if negb calloc_ok then None
  else Some (mkHashTable INITIAL_CAPACITY 0 (calloc INITIAL_CAPACITY)).

Fixpoint get_loop (fuel : nat) (table : HashTable) (key : string) (index : Z)
  : res ptr :=
  match fuel with
  | O => OutOfFuel
  | S fuel' =>
      match _entries table !! Z.to_nat index with
      | None => Fault
      | Some e =>
          match e with
          | mkEntry None _ => Ret NULL
          | mkEntry (Some ekey) evalue =>
              if strcmp key ekey =? 0 then Ret evalue
              else
                let index := wrap64 (index + 1) in
                let index := if capacity table <=? index then 0 else index in
                get_loop fuel' table key index
          end
      end
  end.

Definition hashtable_get (fuel : nat) (table : HashTable) (key : string)
  : res ptr :=
  let hash := djb2_hash key in
  let index := Z.land hash (wrap64 (capacity table - 1)) in
  get_loop fuel table key index.

(** The body of [hashtable_set], lines 235-247: what runs once the assertion
    of line 234 has passed or has been compiled out.  The assertion itself
    is [hashtable_set_assert], below. *)
Definition hashtable_set (fuel : nat) (table : HashTable) (key : string)
    (value : ptr) (calloc_ok strdup_ok : bool)
  : res (option string * HashTable) :=
  if value =? NULL then Ret (None, table)
  else
    r ← (if capacity table / 2 <=? length table
          then hashtable_expand fuel table calloc_ok
          else Ret (true, table));
    let '(expanded, table) := r in
    if negb expanded then Ret (None, table)
    else
      '(ret, entries', p_length) ←
         hashtable_set_entry fuel (_entries table) (capacity table) key value
           (Some (length table)) strdup_ok;
      Ret (ret,
           mkHashTable (capacity table)
             (match p_length with Some l => l | None => length table end)
             entries').

(** Line 234, [assert(value != NULL)], in front of the body.  A call either
    aborts the process at the assertion, before anything is read or written,
    or passes it and runs [hashtable_set].  [ndebug] says whether the header
    is compiled with [NDEBUG]; the header as shipped does not define it. *)
Inductive asserted (A : Type) : Type :=
| Aborted
| Passed (r : res A).
Arguments Aborted {A}.
Arguments Passed {A} r.

Definition hashtable_set_assert (ndebug : bool) (fuel : nat)
    (table : HashTable) (key : string) (value : ptr)
    (calloc_ok strdup_ok : bool)
  : asserted (option string * HashTable) :=
  if negb ndebug && (value =? NULL) then Aborted
  else Passed (hashtable_set fuel table key value calloc_ok strdup_ok).

Definition hashtable_length (table : HashTable) : Z := length table.

(** The [key] and [value] fields are left uninitialised by the source; their
    indeterminate contents are the arguments [key0] and [value0]. *)
Definition hashtable_create_iterator (table : HashTable)
    (key0 : option string) (value0 : ptr) : hashtable_iterator :=
  mkIterator key0 value0 0.

Fixpoint hashtable_next (fuel : nat) (table : HashTable)
    (it : hashtable_iterator) : res (bool * hashtable_iterator) :=
  match fuel with
  | O => OutOfFuel
  | S fuel' =>
      if _index it <? capacity table then
        let i := _index it in
        let it := mkIterator (it_key it) (it_value it) (wrap64 (_index it + 1)) in
        match _entries table !! Z.to_nat i with
        | None => Fault
        | Some entry =>
            match key entry with
            | Some _ =>
                Ret (true, mkIterator (key entry) (value entry) (_index it))
            | None => hashtable_next fuel' table it
            end
        end
      else Ret (false, it)
  end.

(** A caller's loop [while (hashtable_next(&it)) ...] that records the
    iterator's [key] and [value] after each successful advance. *)
Fixpoint iterate (fuel : nat) (table : HashTable) (it : hashtable_iterator)
  : res (list (option string * ptr)) :=
  match fuel with
  | O => OutOfFuel
  | S fuel' =>
      '(more, it') ← hashtable_next (S fuel') table it;
      if more : bool then
        rest ← iterate fuel' table it';
        Ret ((it_key it', it_value it') :: rest)
      else Ret []
  end.

(** ** Concrete runs *)

Definition fresh : HashTable :=
  mkHashTable INITIAL_CAPACITY 0 (calloc INITIAL_CAPACITY).

(** A sequence of [set] calls with every allocation succeeding: the values
    the calls returned and the table they leave. *)
Fixpoint set_all (fuel : nat) (table : HashTable) (kvs : list (string * ptr))
  : res (list (option string) * HashTable) :=
  match kvs with
  | [] => Ret ([], table)
  | (k, v) :: rest =>
      '(ret, table') ← hashtable_set fuel table k v true true;
      '(rets, table'') ← set_all fuel table' rest;
      Ret (ret :: rets, table'')
  end.

(** ** Well-formed and reachable tables *)

Definition occupied (e : HashTableEntry) : bool :=
  match key e with Some _ => true | None => false end.

Fixpoint n_occupied (entries : list HashTableEntry) : nat :=
  match entries with
  | [] => O
  | e :: rest => ((if occupied e then 1 else 0) + n_occupied rest)%nat
  end.

Record wf (t : HashTable) : Prop := mk_wf {
  wf_pow2 : exists n, 4 <= n <= 63 /\ capacity t = 2 ^ n;
  wf_size : Z.of_nat (Datatypes.length (_entries t)) = capacity t;
  wf_load : 0 <= length t /\ length t * 2 <= capacity t;
  wf_occ : Z.of_nat (n_occupied (_entries t)) <= length t
}.

(** The tables a program can hold: the result of a successful
    [hashtable_create], and the table left behind by any returning call of
    [hashtable_set], failed or not. *)
Inductive reachable : HashTable -> Prop :=
| reachable_create t :
    hashtable_create true true = Some t -> reachable t
| reachable_set fuel t key value calloc_ok strdup_ok ret t' :
    reachable t ->
    hashtable_set fuel t key value calloc_ok strdup_ok = Ret (ret, t') ->
    reachable t'.

(** ** A program state and the public operations on it *)

Record state : Type := mkState {
  table : HashTable;
  iter : hashtable_iterator
}.

Inductive op : Type :=
| OpGet (fuel : nat) (key : string)
| OpSet (fuel : nat) (key : string) (value : ptr) (calloc_ok strdup_ok : bool)
| OpLength
| OpCreateIterator (key0 : option string) (value0 : ptr)
| OpNext (fuel : nat).

Definition is_set (o : op) : bool :=
  match o with OpSet _ _ _ _ _ => true | _ => false end.

Definition run_op (o : op) (s : state) : res state :=
  match o with
  | OpGet fuel key =>
      _ ← hashtable_get fuel (table s) key; Ret s
  | OpSet fuel key value calloc_ok strdup_ok =>
      '(_, t') ← hashtable_set fuel (table s) key value calloc_ok strdup_ok;
      Ret (mkState t' (iter s))
  | OpLength =>
      let _ := hashtable_length (table s) in Ret s
  | OpCreateIterator key0 value0 =>
      Ret (mkState (table s) (hashtable_create_iterator (table s) key0 value0))
  | OpNext fuel =>
      '(_, it') ← hashtable_next fuel (table s) (iter s);
      Ret (mkState (table s) it')
  end.

Fixpoint run_ops (ops : list op) (s : state) : res state :=
  match ops with
  | [] => Ret s
  | o :: rest => s' ← run_op o s; run_ops rest s'
  end.

(** ** Definitions used by the proofs *)

(** The index after [index++] and the wrap-around test. *)
Definition next_index (capacity index : Z) : Z :=
  let index := wrap64 (index + 1) in
  if capacity <=? index then 0 else index.

(** What a returning call of [hashtable_set_entry] did to the array and to
    the cell behind [p_length]. *)
Inductive set_entry_effect (entries : list HashTableEntry) (p_length : option Z)
    (strdup_ok : bool)
  : option string -> list HashTableEntry -> option Z -> Prop :=
| effect_wrote k entries' :
    Datatypes.length entries' = Datatypes.length entries ->
    n_occupied entries' = n_occupied entries ->
    set_entry_effect entries p_length strdup_ok (Some k) entries' p_length
| effect_inserted k entries' :
    Datatypes.length entries' = Datatypes.length entries ->
    n_occupied entries' = S (n_occupied entries) ->
    (p_length <> None -> strdup_ok = true) ->
    set_entry_effect entries p_length strdup_ok (Some k) entries'
      (option_map (fun len => wrap64 (len + 1)) p_length)
| effect_failed :
    p_length <> None -> strdup_ok = false ->
    set_entry_effect entries p_length strdup_ok None entries p_length.

(** The pairs held by the occupied slots of an array, in slot order. *)
Fixpoint occupied_pairs (entries : list HashTableEntry)
  : list (option string * ptr) :=
  match entries with
  | [] => []
  | e :: rest =>
      if occupied e then (key e, value e) :: occupied_pairs rest
      else occupied_pairs rest
  end.

(** Every key stored in the array satisfies [P]. *)
Definition keys_within (P : string -> Prop) (entries : list HashTableEntry)
  : Prop :=
  forall i e k, entries !! i = Some e -> key e = Some k -> P k.

(** [set_by ks k']: the stored key [k'] is the copy of a key in [ks]. *)
Definition set_by (ks : list string) (k' : string) : Prop :=
  exists k, k ∈ ks /\ k' = cstr k.

(** Reachable tables together with the keys of the [set] calls that returned
    a key pointer. *)
Inductive reachable_from : list string -> HashTable -> Prop :=
| from_create t :
    hashtable_create true true = Some t -> reachable_from [] t
| from_set_ok fuel ks t key value calloc_ok strdup_ok k' t' :
    reachable_from ks t ->
    hashtable_set fuel t key value calloc_ok strdup_ok = Ret (Some k', t') ->
    reachable_from (key :: ks) t'
| from_set_failed fuel ks t key value calloc_ok strdup_ok t' :
    reachable_from ks t ->
    hashtable_set fuel t key value calloc_ok strdup_ok = Ret (None, t') ->
    reachable_from ks t'.

(** ** Tables used as concrete inputs *)

Definition keys_a_a : list (string * ptr) :=
  [("a"%string, 1); ("a"%string, 2)].

Definition keys_a_q : list (string * ptr) :=
  [("a"%string, 1); ("q"%string, 2)].

Definition ten_distinct : list (string * ptr) :=
  [("a"%string, 1); ("q"%string, 2); ("b"%string, 3); ("c"%string, 4);
   ("d"%string, 5); ("e"%string, 6); ("f"%string, 7); ("g"%string, 8);
   ("h"%string, 9); ("i"%string, 10)].

Definition eight_distinct : list (string * ptr) :=
  [("a"%string, 1); ("b"%string, 2); ("c"%string, 3); ("d"%string, 4);
   ("e"%string, 5); ("f"%string, 6); ("g"%string, 7); ("h"%string, 8)].

Definition table_a : HashTable :=
  mkHashTable 16 1 (<[6%nat := mkEntry (Some "a"%string) 1]> (calloc 16)).

Definition table_8 : HashTable :=
  Eval vm_compute in
    match set_all 16 fresh eight_distinct with
    | Ret (_, t) => t
    | _ => fresh
    end.

(** ** Definitions used by the further properties *)

(** djb2 over the unbounded integers: [hash * 33 + c] for every byte before
    the terminator, as the comment in the source reads. *)
Fixpoint djb2_poly (hash : Z) (key : string) : Z :=
  match key with
  | EmptyString => hash
  | String ch rest =>
      if byte_of ch =? 0 then hash
      else djb2_poly (hash * 33 + byte_of ch) rest
  end.

(** The slot at which probing for [key] starts in an array of [capacity]. *)
Definition home (capacity : Z) (key : string) : Z :=
  Z.land (djb2_hash key) (wrap64 (capacity - 1)).

(** Some slot of the array holds a key that [strcmp] finds equal to [key]. *)
Definition holds_key (entries : list HashTableEntry) (key : string) : Prop :=
  exists i k v, entries !! i = Some (mkEntry (Some k) v) /\ strcmp key k = 0.

(** An empty slot has a null value; an occupied slot has a non-null value
    and a key with no NUL byte. *)
Definition slot_ok (e : HashTableEntry) : Prop :=
  match key e with
  | None => value e = NULL
  | Some k => value e <> NULL /\ cstr k = k
  end.

Definition slots_ok (entries : list HashTableEntry) : Prop :=
  forall i e, entries !! i = Some e -> slot_ok e.

(** The [d] slots from the home slot of [key] on all hold keys equal to
    [key]. *)
Definition probe_run (entries : list HashTableEntry) (c : Z) (key : string)
    (d : Z) : Prop :=
  forall d', 0 <= d' < d ->
    exists k' v',
      entries !! Z.to_nat ((home c key + d') mod c)
        = Some (mkEntry (Some k') v')
      /\ strcmp key k' = 0.

(** Every stored key sits at the end of such a run. *)
Definition runs_ok (entries : list HashTableEntry) (c : Z) : Prop :=
  forall i k v, entries !! i = Some (mkEntry (Some k) v) ->
    exists d, 0 <= d /\ Z.of_nat i = (home c k + d) mod c
              /\ probe_run entries c k d.

(** The table on which the final insertion of a [set] runs. *)
Definition before_insert (fuel : nat) (t : HashTable) (calloc_ok : bool)
    (t1 : HashTable) : Prop :=
  (capacity t / 2 <= length t
   /\ hashtable_expand fuel t calloc_ok = Ret (true, t1))
  \/ (length t < capacity t / 2 /\ t1 = t).

(** The keys set to build [table_8], latest first. *)
Definition keys_of_table_8 : list string :=
  ["h"; "g"; "f"; "e"; "d"; "c"; "b"; "a"]%string.

(** * Proofs *)

(** ** Arithmetic of indices *)

Lemma wrap64_small z : 0 <= z < 2 ^ 64 -> wrap64 z = z.
Proof. intros H. unfold wrap64. apply Z.mod_small. exact H. Qed.

Lemma pow2_bounds n : 4 <= n <= 63 -> 16 <= 2 ^ n <= 2 ^ 63.
Proof.
  intros [H1 H2]. split.
  - change 16 with (2 ^ 4). apply Z.pow_le_mono_r; lia.
  - apply Z.pow_le_mono_r; lia.
Qed.

Lemma home_index_range hash n :
  0 <= n <= 63 ->
  0 <= Z.land hash (wrap64 (2 ^ n - 1)) < 2 ^ n.
Proof.
  intros Hn.
  assert (Hp : 0 < 2 ^ n) by (apply Z.pow_pos_nonneg; lia).
  assert (Hq : 2 ^ n <= 2 ^ 63) by (apply Z.pow_le_mono_r; lia).
  rewrite wrap64_small by lia.
  replace (2 ^ n - 1) with (Z.ones n) by (rewrite Z.ones_equiv; lia).
  rewrite Z.land_ones by lia.
  apply Z.mod_pos_bound. exact Hp.
Qed.

Lemma home_index_mod hash n :
  0 <= n <= 63 ->
  Z.land hash (wrap64 (2 ^ n - 1)) = hash mod 2 ^ n.
Proof.
  intros Hn.
  assert (Hp : 0 < 2 ^ n) by (apply Z.pow_pos_nonneg; lia).
  assert (Hq : 2 ^ n <= 2 ^ 63) by (apply Z.pow_le_mono_r; lia).
  rewrite wrap64_small by lia.
  replace (2 ^ n - 1) with (Z.ones n) by (rewrite Z.ones_equiv; lia).
  apply Z.land_ones. lia.
Qed.

Lemma next_index_range c i :
  0 <= i < c -> c <= 2 ^ 63 -> 0 <= next_index c i < c.
Proof.
  intros Hi Hc. unfold next_index.
  rewrite wrap64_small by lia.
  destruct (Z.leb_spec c (i + 1)); lia.
Qed.

Lemma next_index_mod c i :
  0 <= i < c -> c <= 2 ^ 63 -> next_index c i = (i + 1) mod c.
Proof.
  intros Hi Hc. unfold next_index.
  rewrite wrap64_small by lia.
  destruct (Z.leb_spec c (i + 1)).
  - replace (i + 1) with c by lia. rewrite Z.mod_same by lia. reflexivity.
  - rewrite Z.mod_small by lia. reflexivity.
Qed.

(** ** Counting occupied slots *)

Lemma n_occupied_le entries :
  (n_occupied entries <= Datatypes.length entries)%nat.
Proof.
  induction entries as [|e rest IH]; simpl; [lia|].
  destruct (occupied e); lia.
Qed.

Lemma n_occupied_replicate n :
  n_occupied (replicate n (mkEntry None NULL)) = O.
Proof. induction n as [|n IH]; simpl; auto. Qed.

Lemma n_occupied_insert entries i e e' :
  entries !! i = Some e ->
  (n_occupied (<[i := e']> entries) + (if occupied e then 1 else 0)
   = n_occupied entries + (if occupied e' then 1 else 0))%nat.
Proof.
  revert i. induction entries as [|x rest IH]; intros [|i] H; simpl in *;
    try discriminate.
  - injection H as ->. lia.
  - specialize (IH _ H). lia.
Qed.

Lemma all_occupied_full entries :
  (forall i e, entries !! i = Some e -> occupied e = true) ->
  n_occupied entries = Datatypes.length entries.
Proof.
  induction entries as [|x rest IH]; intros H; simpl; [reflexivity|].
  rewrite (H O x eq_refl). rewrite IH; [reflexivity|].
  intros i e Hi. apply (H (S i) e Hi).
Qed.

Lemma empty_slot_exists entries :
  (n_occupied entries < Datatypes.length entries)%nat ->
  exists i e, entries !! i = Some e /\ key e = None.
Proof.
  induction entries as [|x rest IH]; simpl; intros H; [lia|].
  destruct (occupied x) eqn:Hx.
  - destruct IH as (i & e & Hi & He); [lia|]. exists (S i), e. auto.
  - exists O, x. split; [reflexivity|].
    unfold occupied in Hx. destruct (key x); [discriminate|reflexivity].
Qed.

(** ** The probing loops *)

Lemma lookup_in_range (entries : list HashTableEntry) c i :
  Z.of_nat (Datatypes.length entries) = c -> 0 <= i < c ->
  exists e, entries !! Z.to_nat i = Some e.
Proof.
  intros Hlen Hi.
  destruct (entries !! Z.to_nat i) as [e|] eqn:E; [eauto|].
  apply lookup_ge_None in E. lia.
Qed.

Lemma covers_all_slots (entries : list HashTableEntry) c index :
  Z.of_nat (Datatypes.length entries) = c -> 0 <= index < c ->
  (forall j, 0 <= j < c ->
     exists e, entries !! Z.to_nat ((index + j) mod c) = Some e
               /\ occupied e = true) ->
  n_occupied entries = Datatypes.length entries.
Proof.
  intros Hlen Hi H. apply all_occupied_full. intros i e Hie.
  assert (Hlt : (i < Datatypes.length entries)%nat)
    by (eapply lookup_lt_Some; eauto).
  destruct (H ((Z.of_nat i - index) mod c)) as (e' & He' & Hocc).
  { apply Z.mod_pos_bound. lia. }
  rewrite Zplus_mod_idemp_r in He'.
  replace (index + (Z.of_nat i - index)) with (Z.of_nat i) in He' by lia.
  rewrite Z.mod_small in He' by lia.
  rewrite Nat2Z.id in He'. congruence.
Qed.

Lemma set_entry_loop_spec fuel entries c key value index r :
  Z.of_nat (Datatypes.length entries) = c -> c <= 2 ^ 63 -> 0 <= index < c ->
  set_entry_loop fuel entries c key value index = Ret r ->
  match r with
  | AtEmpty i =>
      0 <= i < c /\ exists v0, entries !! Z.to_nat i = Some (mkEntry None v0)
  | Wrote k entries' =>
      exists i v0, 0 <= i < c
        /\ entries !! Z.to_nat i = Some (mkEntry (Some k) v0)
        /\ strcmp key k <> 0
        /\ entries' = <[Z.to_nat i := mkEntry (Some k) value]> entries
  end.
Proof.
  intros Hlen Hc. revert index.
  induction fuel as [|fuel IH]; intros index Hi H; simpl in H; [discriminate|].
  destruct (entries !! Z.to_nat index) as [[[ek|] v0]|] eqn:E;
    [| |discriminate].
  - destruct (Z.eqb_spec (strcmp key ek) 0) as [Heq|Hne]; simpl in H.
    + apply IH in H; [exact H|]. apply next_index_range; assumption.
    + injection H as <-. exists index, v0. auto.
  - injection H as <-. split; [assumption|]. eauto.
Qed.

Lemma set_entry_loop_no_fault fuel entries c key value index :
  Z.of_nat (Datatypes.length entries) = c -> c <= 2 ^ 63 -> 0 <= index < c ->
  set_entry_loop fuel entries c key value index <> Fault.
Proof.
  intros Hlen Hc. revert index.
  induction fuel as [|fuel IH]; intros index Hi; simpl; [discriminate|].
  destruct (lookup_in_range entries c index Hlen Hi) as [[[ek|] v0] ->];
    [|discriminate].
  destruct (negb (strcmp key ek =? 0)); [discriminate|].
  apply IH. apply next_index_range; assumption.
Qed.

Lemma set_entry_loop_out_of_fuel fuel entries c key value index :
  Z.of_nat (Datatypes.length entries) = c -> c <= 2 ^ 63 -> 0 <= index < c ->
  set_entry_loop fuel entries c key value index = OutOfFuel ->
  forall j, 0 <= j < Z.of_nat fuel ->
    exists e, entries !! Z.to_nat ((index + j) mod c) = Some e
              /\ occupied e = true.
Proof.
  intros Hlen Hc. revert index.
  induction fuel as [|fuel IH]; intros index Hi H j Hj; [lia|].
  simpl in H.
  destruct (entries !! Z.to_nat index) as [[[ek|] v0]|] eqn:E;
    try discriminate.
  destruct (negb (strcmp key ek =? 0)); [discriminate|].
  destruct (Z.eq_dec j 0) as [->|Hj0].
  - rewrite Z.add_0_r, Z.mod_small by lia. eauto.
  - change (set_entry_loop fuel entries c key value (next_index c index)
            = OutOfFuel) in H.
    destruct (IH _ (next_index_range c index Hi Hc) H (j - 1)) as (e & He & Ho);
      [lia|].
    rewrite next_index_mod in He by assumption.
    rewrite Zplus_mod_idemp_l in He.
    replace (index + 1 + (j - 1)) with (index + j) in He by lia. eauto.
Qed.

Lemma set_entry_loop_terminates fuel entries c key value index :
  Z.of_nat (Datatypes.length entries) = c -> c <= 2 ^ 63 -> 0 <= index < c ->
  (n_occupied entries < Datatypes.length entries)%nat ->
  c <= Z.of_nat fuel ->
  exists r, set_entry_loop fuel entries c key value index = Ret r.
Proof.
  intros Hlen Hc Hi Hocc Hfuel.
  destruct (set_entry_loop fuel entries c key value index) as [r| |] eqn:E.
  - eauto.
  - exfalso.
    pose proof (set_entry_loop_out_of_fuel _ _ _ _ _ _ Hlen Hc Hi E) as H.
    assert (n_occupied entries = Datatypes.length entries); [|lia].
    apply (covers_all_slots entries c index); auto.
    intros j Hj. apply H. lia.
  - exfalso. eapply set_entry_loop_no_fault; eauto.
Qed.

Lemma get_loop_no_fault fuel t key index :
  Z.of_nat (Datatypes.length (_entries t)) = capacity t ->
  capacity t <= 2 ^ 63 -> 0 <= index < capacity t ->
  get_loop fuel t key index <> Fault.
Proof.
  intros Hlen Hc. revert index.
  induction fuel as [|fuel IH]; intros index Hi; simpl; [discriminate|].
  destruct (lookup_in_range _ _ index Hlen Hi) as [[[ek|] v0] ->];
    [|discriminate].
  destruct (strcmp key ek =? 0); [discriminate|].
  apply IH. apply next_index_range; assumption.
Qed.

Lemma get_loop_out_of_fuel fuel t key index :
  Z.of_nat (Datatypes.length (_entries t)) = capacity t ->
  capacity t <= 2 ^ 63 -> 0 <= index < capacity t ->
  get_loop fuel t key index = OutOfFuel ->
  forall j, 0 <= j < Z.of_nat fuel ->
    exists e, _entries t !! Z.to_nat ((index + j) mod capacity t) = Some e
              /\ occupied e = true.
Proof.
  intros Hlen Hc. revert index.
  induction fuel as [|fuel IH]; intros index Hi H j Hj; [lia|].
  simpl in H.
  destruct (_entries t !! Z.to_nat index) as [[[ek|] v0]|] eqn:E;
    try discriminate.
  destruct (strcmp key ek =? 0); [discriminate|].
  destruct (Z.eq_dec j 0) as [->|Hj0].
  - rewrite Z.add_0_r, Z.mod_small by lia. eauto.
  - change (get_loop fuel t key (next_index (capacity t) index) = OutOfFuel)
      in H.
    destruct (IH _ (next_index_range _ index Hi Hc) H (j - 1)) as (e & He & Ho);
      [lia|].
    rewrite next_index_mod in He by assumption.
    rewrite Zplus_mod_idemp_l in He.
    replace (index + 1 + (j - 1)) with (index + j) in He by lia. eauto.
Qed.

Lemma get_loop_terminates fuel t key index :
  Z.of_nat (Datatypes.length (_entries t)) = capacity t ->
  capacity t <= 2 ^ 63 -> 0 <= index < capacity t ->
  (n_occupied (_entries t) < Datatypes.length (_entries t))%nat ->
  capacity t <= Z.of_nat fuel ->
  exists r, get_loop fuel t key index = Ret r.
Proof.
  intros Hlen Hc Hi Hocc Hfuel.
  destruct (get_loop fuel t key index) as [r| |] eqn:E.
  - eauto.
  - exfalso.
    pose proof (get_loop_out_of_fuel _ _ _ _ Hlen Hc Hi E) as H.
    assert (n_occupied (_entries t) = Datatypes.length (_entries t)); [|lia].
    apply (covers_all_slots _ (capacity t) index); auto.
    intros j Hj. apply H. lia.
  - exfalso. eapply get_loop_no_fault; eauto.
Qed.

(** ** The insertion primitive *)

Lemma hashtable_set_entry_spec fuel entries c n key value p_length strdup_ok
    ret entries' p_length' :
  Z.of_nat (Datatypes.length entries) = c -> 0 <= n <= 63 -> c = 2 ^ n ->
  hashtable_set_entry fuel entries c key value p_length strdup_ok
    = Ret (ret, entries', p_length') ->
  set_entry_effect entries p_length strdup_ok ret entries' p_length'.
Proof.
  intros Hlen Hn Hc H. unfold hashtable_set_entry in H.
  assert (Hc63 : c <= 2 ^ 63) by (rewrite Hc; apply Z.pow_le_mono_r; lia).
  assert (Hhome : 0 <= Z.land (djb2_hash key) (wrap64 (c - 1)) < c)
    by (rewrite Hc; apply home_index_range; lia).
  destruct (set_entry_loop fuel entries c key value
              (Z.land (djb2_hash key) (wrap64 (c - 1)))) as [r| |] eqn:E;
    try discriminate.
  apply set_entry_loop_spec in E; try assumption.
  destruct r as [i|k es]; simpl in H.
  - destruct E as (Hi & v0 & Hslot).
    destruct p_length as [len|].
    + destruct strdup_ok; simpl in H; injection H as <- <- <-.
      * apply (effect_inserted _ (Some len)); auto.
        -- apply length_insert.
        -- pose proof (n_occupied_insert entries (Z.to_nat i) _
                         (mkEntry (Some (cstr key)) value) Hslot) as Hn'.
           simpl in Hn'. lia.
      * apply effect_failed; [discriminate|reflexivity].
    + injection H as <- <- <-.
      apply (effect_inserted _ None).
      * apply length_insert.
      * pose proof (n_occupied_insert entries (Z.to_nat i) _
                      (mkEntry (Some key) value) Hslot) as Hn'.
        simpl in Hn'. lia.
      * intros Hx. congruence.
  - destruct E as (i & v0 & Hi & Hslot & Hne & ->).
    injection H as <- <- <-.
    apply effect_wrote.
    + apply length_insert.
    + pose proof (n_occupied_insert entries (Z.to_nat i) _
                    (mkEntry (Some k) value) Hslot) as Hn'.
      simpl in Hn'. lia.
Qed.

Lemma hashtable_set_entry_terminates fuel entries c n key value p_length
    strdup_ok :
  Z.of_nat (Datatypes.length entries) = c -> 0 <= n <= 63 -> c = 2 ^ n ->
  (n_occupied entries < Datatypes.length entries)%nat ->
  c <= Z.of_nat fuel ->
  exists r,
    hashtable_set_entry fuel entries c key value p_length strdup_ok = Ret r.
Proof.
  intros Hlen Hn Hc Hocc Hfuel. unfold hashtable_set_entry.
  assert (Hc63 : c <= 2 ^ 63) by (rewrite Hc; apply Z.pow_le_mono_r; lia).
  assert (Hhome : 0 <= Z.land (djb2_hash key) (wrap64 (c - 1)) < c)
    by (rewrite Hc; apply home_index_range; lia).
  destruct (set_entry_loop_terminates fuel entries c key value _
              Hlen Hc63 Hhome Hocc Hfuel) as [r ->].
  simpl. destruct r as [i|k es]; [|eauto].
  destruct p_length as [len|]; [|eauto].
  destruct (strdup strdup_ok key); eauto.
Qed.

(** ** Growth *)

Lemma expand_loop_spec fuel old c n :
  0 <= n <= 63 -> c = 2 ^ n ->
  forall k m new new',
    Z.of_nat (Datatypes.length new) = c ->
    expand_loop fuel old (seqZ (Z.of_nat m) (Z.of_nat k)) new c = Ret new' ->
    Datatypes.length new' = Datatypes.length new
    /\ (n_occupied new' <= n_occupied new + n_occupied (take k (drop m old)))%nat.
Proof.
  intros Hn Hc. induction k as [|k IH]; intros m new new' Hlen H.
  - simpl in H. injection H as <-. split; lia.
  - rewrite seqZ_cons in H by lia. simpl in H.
    rewrite Nat2Z.id in H.
    destruct (old !! m) as [entry|] eqn:E; [|discriminate].
    rewrite (drop_S _ _ _ E). cbn [take n_occupied].
    replace (Z.succ (Z.of_nat m)) with (Z.of_nat (S m)) in H by lia.
    replace (Z.pred (Z.of_nat (S k))) with (Z.of_nat k) in H by lia.
    unfold occupied at 1. destruct (key entry) as [ek|] eqn:Ek.
    + destruct (hashtable_set_entry fuel new c ek (value entry) None false)
        as [[[ret new1] pl]| |] eqn:Es; try discriminate.
      simpl in H.
      apply (hashtable_set_entry_spec _ _ _ n) in Es; try assumption.
      assert (Hnew1 : Datatypes.length new1 = Datatypes.length new
                      /\ (n_occupied new1 <= S (n_occupied new))%nat).
      { inversion Es; subst; split; lia. }
      destruct Hnew1 as [Hl1 Ho1].
      apply IH in H; [|lia]. lia.
    + apply IH in H; [|assumption]. lia.
Qed.

Lemma expand_loop_terminates fuel old c n :
  0 <= n <= 63 -> c = 2 ^ n -> c <= Z.of_nat fuel ->
  forall k m new,
    Z.of_nat (Datatypes.length new) = c ->
    (m + k <= Datatypes.length old)%nat ->
    (n_occupied new + n_occupied (take k (drop m old))
     < Datatypes.length new)%nat ->
    exists new',
      expand_loop fuel old (seqZ (Z.of_nat m) (Z.of_nat k)) new c = Ret new'.
Proof.
  intros Hn Hc Hfuel. induction k as [|k IH]; intros m new Hlen Hm Hocc.
  - simpl. eauto.
  - rewrite seqZ_cons by lia. simpl. rewrite Nat2Z.id.
    destruct (old !! m) as [entry|] eqn:E.
    2:{ apply lookup_ge_None in E. lia. }
    rewrite (drop_S _ _ _ E) in Hocc. cbn [take n_occupied] in Hocc.
    replace (Z.succ (Z.of_nat m)) with (Z.of_nat (S m)) by lia.
    replace (Z.pred (Z.of_nat (S k))) with (Z.of_nat k) by lia.
    unfold occupied in Hocc at 1. destruct (key entry) as [ek|] eqn:Ek.
    + destruct (hashtable_set_entry_terminates fuel new c n ek (value entry)
                  None false Hlen Hn Hc) as [[[ret new1] pl] Es];
        [lia|assumption|].
      rewrite Es. simpl.
      apply (hashtable_set_entry_spec _ _ _ n) in Es; try assumption.
      assert (Hnew1 : Datatypes.length new1 = Datatypes.length new
                      /\ (n_occupied new1 <= S (n_occupied new))%nat).
      { inversion Es; subst; split; lia. }
      destruct Hnew1 as [Hl1 Ho1].
      apply IH; lia.
    + apply IH; [assumption|lia|lia].
Qed.

Lemma double_capacity n :
  4 <= n <= 63 ->
  (n <= 62 /\ wrap64 (2 ^ n * 2) = 2 ^ (n + 1))
  \/ (n = 63 /\ wrap64 (2 ^ n * 2) = 0).
Proof.
  intros Hn. destruct (Z.eq_dec n 63) as [->|Hne].
  - right. split; reflexivity.
  - left. split; [lia|].
    assert (2 ^ (n + 1) <= 2 ^ 63) by (apply Z.pow_le_mono_r; lia).
    assert (0 < 2 ^ (n + 1)) by (apply Z.pow_pos_nonneg; lia).
    rewrite Z.pow_add_r, Z.pow_1_r by lia.
    apply wrap64_small. rewrite Z.pow_add_r, Z.pow_1_r in * by lia. lia.
Qed.

Lemma hashtable_expand_spec fuel t calloc_ok b t' :
  wf t ->
  hashtable_expand fuel t calloc_ok = Ret (b, t') ->
  if b then
    capacity t' = capacity t * 2 /\ length t' = length t
    /\ calloc_ok = true
    /\ (exists n, 4 <= n <= 63 /\ capacity t' = 2 ^ n)
    /\ Z.of_nat (Datatypes.length (_entries t')) = capacity t'
    /\ (n_occupied (_entries t') <= n_occupied (_entries t))%nat
  else
    t' = t /\ (wrap64 (capacity t * 2) < capacity t \/ calloc_ok = false).
Proof.
  intros [(n & Hn & Hcap) Hsize Hload Hocc] H. unfold hashtable_expand in H.
  pose proof (pow2_bounds n Hn) as Hb.
  destruct (Z.ltb_spec (wrap64 (capacity t * 2)) (capacity t)) as [Hlt|Hge].
  { injection H as <- <-. auto. }
  destruct calloc_ok; simpl in H.
  2:{ injection H as <- <-. auto. }
  rewrite Hcap in *.
  destruct (double_capacity n Hn) as [[Hn62 Hw]|[-> Hw]]; [|lia].
  rewrite Hw in *.
  destruct (expand_loop fuel (_entries t) (seqZ 0 (2 ^ n))
              (calloc (2 ^ (n + 1))) (2 ^ (n + 1))) as [new'| |] eqn:E;
    try discriminate.
  simpl in H. injection H as <- <-. simpl.
  assert (Hp : 0 < 2 ^ (n + 1)) by (apply Z.pow_pos_nonneg; lia).
  assert (Hnewlen : Z.of_nat (Datatypes.length (calloc (2 ^ (n + 1))))
                    = 2 ^ (n + 1)).
  { unfold calloc. rewrite length_replicate. lia. }
  replace (2 ^ n) with (Z.of_nat (Datatypes.length (_entries t))) in E at 1
    by lia.
  change 0 with (Z.of_nat 0) in E.
  apply (expand_loop_spec _ _ _ (n + 1)) in E; [|lia|reflexivity|assumption].
  destruct E as [El Eo].
  rewrite drop_0, firstn_all in Eo.
  unfold calloc in Eo at 1. rewrite n_occupied_replicate in Eo.
  repeat split.
  - rewrite Z.pow_add_r, Z.pow_1_r by lia. reflexivity.
  - exists (n + 1). split; [lia|reflexivity].
  - rewrite El. assumption.
  - lia.
Qed.

(** ** [hashtable_create] and [hashtable_set] keep tables well formed *)

Lemma hashtable_create_spec malloc_ok calloc_ok t :
  hashtable_create malloc_ok calloc_ok = Some t ->
  t = fresh /\ malloc_ok = true /\ calloc_ok = true.
Proof.
  unfold hashtable_create.
  destruct malloc_ok, calloc_ok; simpl; intros H; try discriminate.
  injection H as <-. auto.
Qed.

Lemma wf_fresh : wf fresh.
Proof.
  split.
  - exists 4. split; [lia|reflexivity].
  - reflexivity.
  - simpl. unfold INITIAL_CAPACITY. lia.
  - simpl. lia.
Qed.

(** The insertion that ends [hashtable_set], on a table with room for one
    more entry. *)
Lemma live_insert_spec fuel t key value strdup_ok ret entries' p_length' :
  (exists n, 4 <= n <= 63 /\ capacity t = 2 ^ n) ->
  Z.of_nat (Datatypes.length (_entries t)) = capacity t ->
  0 <= length t -> (length t + 1) * 2 <= capacity t ->
  Z.of_nat (n_occupied (_entries t)) <= length t ->
  hashtable_set_entry fuel (_entries t) (capacity t) key value
    (Some (length t)) strdup_ok = Ret (ret, entries', p_length') ->
  let t' := mkHashTable (capacity t)
              (match p_length' with Some l => l | None => length t end)
              entries' in
  wf t' /\ (length t' = length t \/ length t' = length t + 1)
  /\ (ret = None -> t' = t /\ strdup_ok = false).
Proof.
  intros (n & Hn & Hcap) Hsize Hlen0 Hroom Hocc H.
  pose proof (pow2_bounds n Hn) as Hb.
  apply (hashtable_set_entry_spec _ _ _ n) in H; [|assumption|lia|assumption].
  inversion H; subst; simpl.
  - split; [|split; [auto|discriminate]].
    split; simpl; [eauto|lia|lia|lia].
  - rewrite wrap64_small by lia.
    split; [|split; [auto|discriminate]].
    split; simpl; [eauto|lia|lia|lia].
  - split; [|split; [auto|]].
    + split; simpl; [eauto|lia|lia|lia].
    + intros _. destruct t; auto.
Qed.

Lemma hashtable_set_spec fuel t key value calloc_ok strdup_ok ret t' :
  wf t ->
  hashtable_set fuel t key value calloc_ok strdup_ok = Ret (ret, t') ->
  wf t'
  /\ (capacity t' = capacity t \/ capacity t' = capacity t * 2)
  /\ (length t' = length t \/ length t' = length t + 1).
Proof.
  intros Hwf H. unfold hashtable_set in H.
  destruct (value =? NULL). { injection H as <- <-. auto. }
  pose proof Hwf as [(n & Hn & Hcap) Hsize [Hl0 Hload] Hocc].
  pose proof (pow2_bounds n Hn) as Hb.
  destruct (Z.leb_spec (capacity t / 2) (length t)) as [Hfull|Hroom].
  - destruct (hashtable_expand fuel t calloc_ok) as [[b t1]| |] eqn:E;
      try discriminate.
    apply hashtable_expand_spec in E; [|assumption].
    simpl in H. destruct b; simpl in H.
    + destruct E as (Ecap & Elen & _ & Epow & Esize & Eocc).
      destruct (hashtable_set_entry fuel (_entries t1) (capacity t1) key value
                  (Some (length t1)) strdup_ok) as [[[r es] pl]| |] eqn:Es;
        try discriminate.
      simpl in H. injection H as <- <-.
      apply live_insert_spec in Es; try assumption; try lia.
      destruct Es as (Hwf' & Hlen' & _). simpl in *.
      split; [assumption|]. split; [right; assumption|]. lia.
    + destruct E as [-> _]. injection H as <- <-. auto.
  - simpl in H.
    destruct (hashtable_set_entry fuel (_entries t) (capacity t) key value
                (Some (length t)) strdup_ok) as [[[r es] pl]| |] eqn:Es;
      try discriminate.
    simpl in H. injection H as <- <-.
    assert (Heven : capacity t = 2 * (capacity t / 2)).
    { rewrite Hcap. replace n with (1 + (n - 1)) at 1 by lia.
      rewrite Z.pow_add_r, Z.pow_1_r by lia.
      replace n with (1 + (n - 1)) at 2 by lia.
      rewrite Z.pow_add_r, Z.pow_1_r by lia.
      rewrite (Z.mul_comm 2), Z.div_mul by lia. lia. }
    apply live_insert_spec in Es; try eauto; try lia.
    destruct Es as (Hwf' & Hlen' & _). simpl in *.
    split; [assumption|]. split; [left; reflexivity|]. assumption.
Qed.

Lemma reachable_wf t : reachable t -> wf t.
Proof.
  induction 1 as [t Hc|fuel t key value cok sok ret t' _ IH Hs].
  - apply hashtable_create_spec in Hc. destruct Hc as [-> _]. apply wf_fresh.
  - eapply hashtable_set_spec; eauto.
Qed.

Lemma reachable_fresh : reachable fresh.
Proof. apply reachable_create. reflexivity. Qed.

Lemma set_all_reachable fuel kvs : forall t rets t',
  reachable t -> set_all fuel t kvs = Ret (rets, t') -> reachable t'.
Proof.
  induction kvs as [|[k v] rest IH]; intros t rets t' Hr H; simpl in H.
  - injection H as <- <-. assumption.
  - destruct (hashtable_set fuel t k v true true) as [[r t1]| |] eqn:E;
      try discriminate.
    simpl in H.
    destruct (set_all fuel t1 rest) as [[rs t2]| |] eqn:E2; try discriminate.
    simpl in H. injection H as <- <-.
    eapply IH; [|exact E2].
    eapply reachable_set; eauto.
Qed.

Lemma wf_has_room t :
  wf t -> (n_occupied (_entries t) < Datatypes.length (_entries t))%nat.
Proof.
  intros [(n & Hn & Hcap) Hsize [Hl0 Hload] Hocc].
  pose proof (pow2_bounds n Hn). lia.
Qed.

Lemma hashtable_get_terminates fuel t key :
  wf t -> capacity t <= Z.of_nat fuel ->
  exists r, hashtable_get fuel t key = Ret r.
Proof.
  intros Hwf Hfuel. pose proof (wf_has_room t Hwf) as Hroom.
  destruct Hwf as [(n & Hn & Hcap) Hsize _ _].
  pose proof (pow2_bounds n Hn) as Hb.
  unfold hashtable_get. apply get_loop_terminates; try assumption; try lia.
  rewrite Hcap. apply home_index_range. lia.
Qed.

Lemma hashtable_expand_terminates fuel t calloc_ok :
  wf t -> capacity t * 2 <= Z.of_nat fuel ->
  exists r, hashtable_expand fuel t calloc_ok = Ret r.
Proof.
  intros Hwf Hfuel. pose proof Hwf as [(n & Hn & Hcap) Hsize [Hl0 Hload] Hocc].
  pose proof (pow2_bounds n Hn) as Hb.
  unfold hashtable_expand.
  destruct (wrap64 (capacity t * 2) <? capacity t) eqn:Hlt; [eauto|].
  destruct calloc_ok; simpl; [|eauto].
  apply Z.ltb_ge in Hlt. rewrite Hcap in *.
  destruct (double_capacity n Hn) as [[Hn62 Hw]|[-> Hw]]; [|lia].
  rewrite Hw in *.
  assert (Hp : 2 ^ (n + 1) = 2 ^ n * 2)
    by (rewrite Z.pow_add_r, Z.pow_1_r by lia; reflexivity).
  assert (Hnewlen : Z.of_nat (Datatypes.length (calloc (2 ^ (n + 1))))
                    = 2 ^ (n + 1)).
  { unfold calloc. rewrite length_replicate. lia. }
  destruct (expand_loop_terminates fuel (_entries t) (2 ^ (n + 1)) (n + 1))
    with (k := Datatypes.length (_entries t)) (m := O)
         (new := calloc (2 ^ (n + 1))) as [new' E];
    try lia; try assumption.
  - rewrite drop_0, firstn_all.
    unfold calloc at 1. rewrite n_occupied_replicate. lia.
  - rewrite Hsize in E. change (Z.of_nat 0) with 0 in E. rewrite E.
    simpl. eauto.
Qed.

Lemma hashtable_set_terminates fuel t key value calloc_ok strdup_ok :
  wf t -> capacity t * 2 <= Z.of_nat fuel ->
  exists r, hashtable_set fuel t key value calloc_ok strdup_ok = Ret r.
Proof.
  intros Hwf Hfuel. pose proof Hwf as [(n & Hn & Hcap) Hsize [Hl0 Hload] Hocc].
  pose proof (pow2_bounds n Hn) as Hb.
  unfold hashtable_set.
  destruct (value =? NULL); [eauto|].
  destruct (capacity t / 2 <=? length t).
  - destruct (hashtable_expand_terminates fuel t calloc_ok Hwf Hfuel)
      as [[b t1] E].
    rewrite E. simpl.
    apply hashtable_expand_spec in E; [|assumption].
    destruct b; simpl; [|eauto].
    destruct E as (Ecap & Elen & _ & (n1 & Hn1 & Epow) & Esize & Eocc).
    destruct (hashtable_set_entry_terminates fuel (_entries t1) (capacity t1)
                n1 key value (Some (length t1)) strdup_ok) as [[[r es] pl] ->];
      try assumption; try lia.
    simpl. eauto.
  - simpl.
    destruct (hashtable_set_entry_terminates fuel (_entries t) (capacity t)
                n key value (Some (length t)) strdup_ok) as [[[r es] pl] ->];
      try assumption; try lia.
    simpl. eauto.
Qed.

(** ** Iteration reports the occupied slots, in slot order *)

Lemma occupied_pairs_length entries :
  Datatypes.length (occupied_pairs entries) = n_occupied entries.
Proof.
  induction entries as [|e rest IH]; simpl; [reflexivity|].
  destruct (occupied e); simpl; lia.
Qed.

Lemma hashtable_next_spec t :
  Z.of_nat (Datatypes.length (_entries t)) = capacity t ->
  capacity t <= 2 ^ 63 ->
  forall k fuel it,
    0 <= _index it <= capacity t ->
    Z.to_nat (capacity t - _index it) = k -> (k < fuel)%nat ->
    match occupied_pairs (drop (Z.to_nat (_index it)) (_entries t)) with
    | [] =>
        exists j, hashtable_next fuel t it
                  = Ret (false, mkIterator (it_key it) (it_value it) j)
    | p :: rest =>
        exists j,
          hashtable_next fuel t it = Ret (true, mkIterator (fst p) (snd p) j)
          /\ _index it < j <= capacity t
          /\ occupied_pairs (drop (Z.to_nat j) (_entries t)) = rest
    end.
Proof.
  intros Hlen Hc. induction k as [|k IH]; intros fuel it Hi Hk Hfuel;
    (destruct fuel as [|fuel]; [lia|]); simpl.
  - assert (_index it = capacity t) as Heq by lia.
    rewrite drop_ge by lia. simpl.
    destruct (Z.ltb_spec (_index it) (capacity t)); [lia|].
    destruct it; eauto.
  - destruct (Z.ltb_spec (_index it) (capacity t)); [|lia].
    destruct (lookup_in_range (_entries t) (capacity t) (_index it) Hlen)
      as [entry E]; [lia|].
    rewrite E. rewrite (drop_S _ _ _ E). simpl.
    rewrite wrap64_small by lia.
    replace (S (Z.to_nat (_index it))) with (Z.to_nat (_index it + 1)) by lia.
    unfold occupied. destruct (key entry) as [ek|] eqn:Ek.
    + exists (_index it + 1). simpl. split; [reflexivity|]. split; [lia|].
      reflexivity.
    + specialize (IH fuel
                    (mkIterator (it_key it) (it_value it) (_index it + 1))).
      simpl in IH.
      destruct (occupied_pairs (drop (Z.to_nat (_index it + 1)) (_entries t)))
        as [|p rest].
      * apply IH; lia.
      * destruct IH as (j & Hn & Hj & Hrest); [lia|lia|lia|].
        exists j. split; [exact Hn|]. split; [lia|exact Hrest].
Qed.

Lemma iterate_spec t :
  Z.of_nat (Datatypes.length (_entries t)) = capacity t ->
  capacity t <= 2 ^ 63 ->
  forall fuel it,
    0 <= _index it <= capacity t ->
    capacity t - _index it < Z.of_nat fuel ->
    iterate fuel t it
    = Ret (occupied_pairs (drop (Z.to_nat (_index it)) (_entries t))).
Proof.
  intros Hlen Hc. induction fuel as [|fuel IH]; intros it Hi Hfuel; [lia|].
  cbn [iterate].
  pose proof (hashtable_next_spec t Hlen Hc _ (S fuel) it Hi eq_refl) as Hn.
  destruct (occupied_pairs (drop (Z.to_nat (_index it)) (_entries t)))
    as [|p rest].
  - destruct Hn as (j & ->); [lia|]. reflexivity.
  - destruct Hn as (j & -> & Hj & Hrest); [lia|]. simpl.
    rewrite (IH (mkIterator (fst p) (snd p) j)); simpl; [|lia|lia].
    rewrite Hrest. destruct p; reflexivity.
Qed.

(** Iterating a reachable table from a new iterator yields one pair per
    occupied slot, in slot order, and then the end-of-sequence signal. *)
Lemma iterate_reachable t key0 value0 :
  reachable t ->
  iterate (S (Z.to_nat (capacity t))) t
    (hashtable_create_iterator t key0 value0)
  = Ret (occupied_pairs (_entries t))
  /\ Datatypes.length (occupied_pairs (_entries t)) = n_occupied (_entries t).
Proof.
  intros Hr. pose proof (reachable_wf t Hr) as [(n & Hn & Hcap) Hsize _ _].
  pose proof (pow2_bounds n Hn) as Hb.
  split; [|apply occupied_pairs_length].
  rewrite iterate_spec; simpl; try lia. reflexivity.
Qed.

(** ** Keys that were never set are not found *)

Lemma strcmp_cstr_r a : forall b, strcmp a (cstr b) = strcmp a b.
Proof.
  induction a as [|ca ra IH]; intros [|cb rb]; simpl; try reflexivity.
  - destruct (Z.eqb_spec (byte_of cb) 0) as [E|E]; simpl; [lia|reflexivity].
  - destruct (Z.eqb_spec (byte_of cb) 0) as [E|E]; simpl.
    + rewrite E. destruct (Z.eqb_spec (byte_of ca) 0) as [E'|E'].
      * rewrite E'. reflexivity.
      * lia.
    + destruct (byte_of ca =? byte_of cb); [|reflexivity].
      destruct (byte_of ca =? 0); [reflexivity|]. apply IH.
Qed.

Lemma keys_within_insert P entries i k v :
  keys_within P entries -> P k ->
  keys_within P (<[i := mkEntry (Some k) v]> entries).
Proof.
  intros H Hk j e k' Hj Hkey.
  apply list_lookup_insert_Some in Hj.
  destruct Hj as [(_ & <- & _)|(_ & Hj)].
  - simpl in Hkey. injection Hkey as <-. exact Hk.
  - eapply H; eauto.
Qed.

Lemma set_entry_loop_keys P fuel entries c key value : forall index r,
  keys_within P entries ->
  set_entry_loop fuel entries c key value index = Ret r ->
  match r with
  | AtEmpty _ => True
  | Wrote k entries' => keys_within P entries'
  end.
Proof.
  induction fuel as [|fuel IH]; intros index r HP H; simpl in H;
    [discriminate|].
  destruct (entries !! Z.to_nat index) as [[[ek|] v0]|] eqn:E;
    [| |discriminate].
  - destruct (negb (strcmp key ek =? 0)).
    + injection H as <-. apply keys_within_insert; [assumption|].
      eapply HP; [exact E|reflexivity].
    + eapply IH; eauto.
  - injection H as <-. exact I.
Qed.

Lemma hashtable_set_entry_keys P fuel entries c key value p_length strdup_ok
    ret entries' p_length' :
  keys_within P entries ->
  (ret <> None -> P (match p_length with Some _ => cstr key | None => key end)) ->
  hashtable_set_entry fuel entries c key value p_length strdup_ok
    = Ret (ret, entries', p_length') ->
  keys_within P entries'.
Proof.
  intros HP Hk H. unfold hashtable_set_entry in H.
  destruct (set_entry_loop fuel entries c key value
              (Z.land (djb2_hash key) (wrap64 (c - 1)))) as [r| |] eqn:E;
    try discriminate.
  apply (set_entry_loop_keys P) in E; [|assumption].
  destruct r as [i|k es]; simpl in H.
  - destruct p_length as [len|].
    + destruct strdup_ok; simpl in H; injection H as <- <- <-.
      * apply keys_within_insert; [assumption|]. apply Hk. discriminate.
      * assumption.
    + injection H as <- <- <-.
      apply keys_within_insert; [assumption|]. apply Hk. discriminate.
  - injection H as <- <- <-. assumption.
Qed.

Lemma expand_loop_keys P fuel old c : forall indices new new',
  keys_within P old -> keys_within P new ->
  expand_loop fuel old indices new c = Ret new' ->
  keys_within P new'.
Proof.
  induction indices as [|i rest IH]; intros new new' Hold Hnew H; simpl in H.
  - injection H as <-. assumption.
  - destruct (old !! Z.to_nat i) as [entry|] eqn:E; [|discriminate].
    destruct (key entry) as [ek|] eqn:Ek.
    + destruct (hashtable_set_entry fuel new c ek (value entry) None false)
        as [[[ret new1] pl]| |] eqn:Es; try discriminate.
      simpl in H.
      apply (hashtable_set_entry_keys P) in Es; [|assumption|].
      * eapply IH; eauto.
      * intros _. eapply Hold; eauto.
    + eapply IH; eauto.
Qed.

Lemma keys_within_calloc P n : keys_within P (calloc n).
Proof.
  intros i e k Hi Hk. unfold calloc in Hi.
  apply lookup_replicate in Hi. destruct Hi as [-> _]. discriminate.
Qed.

Lemma hashtable_set_keys P fuel t key value calloc_ok strdup_ok ret t' :
  keys_within P (_entries t) ->
  (ret <> None -> P (cstr key)) ->
  hashtable_set fuel t key value calloc_ok strdup_ok = Ret (ret, t') ->
  keys_within P (_entries t').
Proof.
  intros HP Hk H. unfold hashtable_set in H.
  destruct (value =? NULL). { injection H as <- <-. assumption. }
  assert (Hx : forall b t1,
             (if capacity t / 2 <=? length t
              then hashtable_expand fuel t calloc_ok
              else Ret (true, t)) = Ret (b, t1) ->
             keys_within P (_entries t1)).
  { intros b t1 Hx. destruct (capacity t / 2 <=? length t).
    - unfold hashtable_expand in Hx.
      destruct (wrap64 (capacity t * 2) <? capacity t).
      { injection Hx as <- <-. assumption. }
      destruct (negb calloc_ok). { injection Hx as <- <-. assumption. }
      destruct (expand_loop fuel (_entries t) (seqZ 0 (capacity t))
                  (calloc (wrap64 (capacity t * 2)))
                  (wrap64 (capacity t * 2))) as [new'| |] eqn:E;
        try discriminate.
      simpl in Hx. injection Hx as <- <-. simpl.
      eapply expand_loop_keys; [exact HP|apply keys_within_calloc|exact E].
    - injection Hx as <- <-. assumption. }
  destruct (if capacity t / 2 <=? length t
            then hashtable_expand fuel t calloc_ok
            else Ret (true, t)) as [[b t1]| |]; try discriminate.
  specialize (Hx b t1 eq_refl). simpl in H.
  destruct b; simpl in H.
  - destruct (hashtable_set_entry fuel (_entries t1) (capacity t1) key value
                (Some (length t1)) strdup_ok) as [[[r es] pl]| |] eqn:Es;
      try discriminate.
    simpl in H. injection H as <- <-. simpl.
    eapply hashtable_set_entry_keys; [exact Hx| |exact Es]. exact Hk.
  - injection H as <- <-. assumption.
Qed.

Lemma reachable_from_reachable ks t : reachable_from ks t -> reachable t.
Proof.
  induction 1.
  - apply reachable_create. assumption.
  - eapply reachable_set; eauto.
  - eapply reachable_set; eauto.
Qed.

Lemma reachable_from_keys ks t :
  reachable_from ks t -> keys_within (set_by ks) (_entries t).
Proof.
  induction 1 as [t Hc|fuel ks t key value cok sok k' t' _ IH Hs
                  |fuel ks t key value cok sok t' _ IH Hs].
  - apply hashtable_create_spec in Hc. destruct Hc as [-> _].
    apply keys_within_calloc.
  - eapply hashtable_set_keys; [|  |exact Hs].
    + intros i e k Hi Hk. destruct (IH i e k Hi Hk) as (k0 & Hin & ->).
      exists k0. split; [|reflexivity]. apply elem_of_cons. auto.
    + intros _. exists key. split; [|reflexivity]. apply elem_of_cons. auto.
  - eapply hashtable_set_keys; [exact IH| |exact Hs].
    intros Hne. congruence.
Qed.

Lemma get_loop_found fuel t key : forall index v,
  get_loop fuel t key index = Ret v ->
  v = NULL
  \/ exists i ek, _entries t !! i = Some (mkEntry (Some ek) v)
                  /\ strcmp key ek = 0.
Proof.
  induction fuel as [|fuel IH]; intros index v H; simpl in H; [discriminate|].
  destruct (_entries t !! Z.to_nat index) as [[[ek|] v0]|] eqn:E;
    [| |discriminate].
  - destruct (Z.eqb_spec (strcmp key ek) 0) as [Heq|Hne].
    + injection H as <-. right. eauto.
    + eapply IH; eauto.
  - injection H as <-. left. reflexivity.
Qed.

(** On a reachable table, [get] of a key that compares unequal to the key of
    every [set] call that returned a key pointer returns [NULL]. *)
Lemma get_never_set ks t key :
  reachable_from ks t ->
  (forall k, k ∈ ks -> strcmp key k <> 0) ->
  hashtable_get (Z.to_nat (capacity t)) t key = Ret NULL.
Proof.
  intros Hr Hnew.
  pose proof (reachable_wf t (reachable_from_reachable ks t Hr)) as Hwf.
  destruct (hashtable_get_terminates (Z.to_nat (capacity t)) t key Hwf)
    as [v Hv].
  { destruct Hwf as [(n & Hn & Hcap) _ _ _]. pose proof (pow2_bounds n Hn).
    lia. }
  rewrite Hv. f_equal. unfold hashtable_get in Hv.
  apply get_loop_found in Hv. destruct Hv as [->|(i & ek & Hi & Heq)];
    [reflexivity|].
  exfalso.
  destruct (reachable_from_keys ks t Hr i _ ek Hi eq_refl) as (k & Hin & ->).
  rewrite strcmp_cstr_r in Heq. exact (Hnew k Hin Heq).
Qed.

(** * The claims *)

Lemma table_a_set : hashtable_set 16 fresh "a" 1 true true = Ret (Some "a"%string, table_a).
Proof. vm_compute. reflexivity. Qed.

Lemma table_8_sets :
  set_all 16 fresh eight_distinct =
  Ret ([Some "a"; Some "b"; Some "c"; Some "d"; Some "e"; Some "f"; Some "g";
        Some "h"]%string, table_8).
Proof. vm_compute. reflexivity. Qed.

Lemma reachable_table_a : reachable table_a.
Proof.
  exact (reachable_set 16 fresh "a" 1 true true _ table_a
           reachable_fresh table_a_set).
Defined.

Lemma reachable_table_8 : reachable table_8.
Proof.
  exact (set_all_reachable 16 eight_distinct fresh _ table_8
           reachable_fresh table_8_sets).
Defined.

(** ** C1: what the insertion primitive does at an occupied slot *)

(** C1, evaluated on the table holding only "a" (slot 6).  The source tests
    [strcmp(key, entries[index].key) != 0] before the write that its comment
    describes as "Found key (it already exists), update value".  So with the
    equal key "a" the slot is stepped over, a second copy of the key goes to
    slot 7 and the length counter becomes 2; with the unequal key "q", which
    has the same home slot, probing stops at once and the value stored under
    "a" is overwritten, while "q" is not stored and the counter stays 1. *)
Theorem set_entry_occupied_slot_inverted :
  (exists es,
      hashtable_set_entry 16 (_entries table_a) (capacity table_a) "a" 2
        (Some (length table_a)) true = Ret (Some "a"%string, es, Some 2)
      /\ es !! 6%nat = Some (mkEntry (Some "a"%string) 1)
      /\ es !! 7%nat = Some (mkEntry (Some "a"%string) 2))
  /\ (exists es,
      hashtable_set_entry 16 (_entries table_a) (capacity table_a) "q" 2
        (Some (length table_a)) true = Ret (Some "a"%string, es, Some 1)
      /\ es !! 6%nat = Some (mkEntry (Some "a"%string) 2)
      /\ es !! 7%nat = Some (mkEntry None 0))
  /\ strcmp "a" "a" = 0 /\ strcmp "q" "a" <> 0
  /\ Z.land (djb2_hash "a") 15 = 6 /\ Z.land (djb2_hash "q") 15 = 6.
Proof.
  split; [|split].
  - eexists. split; [vm_compute; reflexivity|]. split; reflexivity.
  - eexists. split; [vm_compute; reflexivity|]. split; reflexivity.
  - repeat split; try reflexivity. vm_compute. discriminate.
Qed.

(** ** C2: get after set *)

(** C2, evaluated on a fresh table: [set("a", 1)] then [set("q", 2)] both
    return a key pointer, yet [get("q")] returns [NULL]: the second call
    wrote its value into the slot of "a" and never stored "q". *)
Theorem get_after_set_misses :
  exists t,
    set_all 16 fresh keys_a_q = Ret ([Some "a"; Some "a"]%string, t)
    /\ hashtable_get 16 t "q" = Ret NULL
    /\ hashtable_get 16 t "a" = Ret 2.
Proof.
  eexists. split; [vm_compute; reflexivity|]. split; reflexivity.
Qed.

(** ** C3: setting a key twice *)

(** C3, evaluated on a fresh table: after [set("a", 1)], the call
    [set("a", 2)] succeeds, raises the length from 1 to 2, and [get("a")]
    still returns the first value 1. *)
Theorem second_set_is_not_update :
  exists t,
    hashtable_set 16 table_a "a" 2 true true = Ret (Some "a"%string, t)
    /\ hashtable_length table_a = 1
    /\ hashtable_length t = 2
    /\ hashtable_get 16 t "a" = Ret 1.
Proof.
  eexists. split; [vm_compute; reflexivity|]. repeat split; reflexivity.
Qed.

(** ** C4: length counts distinct keys *)

(** C4, evaluated on a fresh table: two successful sets of the one key "a"
    (N = 2, M = 1) leave length 2, and two successful sets of the distinct
    keys "a" and "q" (N = M = 2) leave length 1. *)
Theorem length_miscounts_distinct_keys :
  (exists t,
      set_all 16 fresh keys_a_a = Ret ([Some "a"; Some "a"]%string, t)
      /\ hashtable_length t = 2)
  /\ (exists t,
      set_all 16 fresh keys_a_q = Ret ([Some "a"; Some "a"]%string, t)
      /\ hashtable_length t = 1).
Proof.
  split; eexists; (split; [vm_compute; reflexivity|reflexivity]).
Qed.

(** ** C6: get after a resize *)

(** C6, evaluated on a fresh table: ten successful sets of ten distinct keys
    force one resize (capacity 32), after which [get("q")] returns [NULL]
    and [get("a")] returns the value given for "q"; the length is 9. *)
Theorem get_after_resize_misses :
  exists t,
    set_all 32 fresh ten_distinct =
      Ret ([Some "a"; Some "a"; Some "b"; Some "c"; Some "d"; Some "e";
            Some "f"; Some "g"; Some "h"; Some "i"]%string, t)
    /\ NoDup (map fst ten_distinct)
    /\ capacity t = 32
    /\ hashtable_length t = 9
    /\ hashtable_get 32 t "q" = Ret NULL
    /\ hashtable_get 32 t "a" = Ret 2.
Proof.
  eexists. split; [vm_compute; reflexivity|].
  split; [|repeat split; reflexivity].
  unfold ten_distinct. simpl.
  repeat (apply NoDup_cons; split; [intros Hin; repeat
            (apply elem_of_cons in Hin; destruct Hin as [Hin|Hin];
             [discriminate|]); apply elem_of_nil in Hin; exact Hin|]).
  apply NoDup_nil. exact I.
Qed.

(** ** C8: iteration *)

(** C8, evaluated on fresh tables: after [set("a", 1)] and [set("a", 2)]
    iteration yields the key "a" twice, once with the superseded value 1;
    after [set("a", 1)] and [set("q", 2)] it yields the single pair
    ("a", 2), which no call set, and no pair for "q". *)
Theorem iteration_yields_duplicates :
  (exists t,
      set_all 16 fresh keys_a_a = Ret ([Some "a"; Some "a"]%string, t)
      /\ iterate 17 t (hashtable_create_iterator t None NULL)
         = Ret [(Some "a"%string, 1); (Some "a"%string, 2)])
  /\ (exists t,
      set_all 16 fresh keys_a_q = Ret ([Some "a"; Some "a"]%string, t)
      /\ iterate 17 t (hashtable_create_iterator t None NULL)
         = Ret [(Some "a"%string, 2)]).
Proof.
  split; eexists; (split; [vm_compute; reflexivity|reflexivity]).
Qed.

(** ** C5: capacity and load-factor invariants *)

(** C5: a created table has capacity 16; every reachable table has a capacity
    that is a power of two and at least 16, and satisfies
    [length * 2 <= capacity] and [length <= capacity]; a returning [set]
    leaves the capacity as it was or doubles it, and leaves
    [length * 2 <= capacity]. *)
Theorem capacity_and_load_invariants (t : HashTable) :
  reachable t ->
  (forall malloc_ok calloc_ok t0,
      hashtable_create malloc_ok calloc_ok = Some t0 ->
      capacity t0 = 16 /\ length t0 = 0)
  /\ (exists n, 4 <= n /\ capacity t = 2 ^ n)
  /\ 16 <= capacity t
  /\ length t * 2 <= capacity t
  /\ length t <= capacity t
  /\ (forall fuel key value calloc_ok strdup_ok ret t',
        hashtable_set fuel t key value calloc_ok strdup_ok = Ret (ret, t') ->
        (capacity t' = capacity t \/ capacity t' = capacity t * 2)
        /\ length t' * 2 <= capacity t').
Proof.
  intros Hr. pose proof (reachable_wf t Hr) as Hwf.
  pose proof Hwf as [(n & Hn & Hcap) Hsize [Hl0 Hload] Hocc].
  pose proof (pow2_bounds n Hn) as Hb.
  split; [|split; [|split; [|split; [|split]]]].
  - intros m c t0 H. apply hashtable_create_spec in H.
    destruct H as [-> _]. split; reflexivity.
  - exists n. split; [lia|assumption].
  - lia.
  - assumption.
  - lia.
  - intros fuel key value cok sok ret t' H.
    apply hashtable_set_spec in H; [|assumption].
    destruct H as ([_ _ [_ Hload'] _] & Hcap' & _). auto.
Qed.

Lemma capacity_and_load_invariants_witness :
  reachable table_8
  /\ length table_8 * 2 <= capacity table_8
  /\ 16 <= capacity table_8.
Proof.
  split; [exact reachable_table_8|].
  destruct (capacity_and_load_invariants table_8 reachable_table_8)
    as (_ & _ & H16 & Hload & _).
  split; [exact Hload|exact H16].
Defined.

(** ** C9: the probing loops terminate *)

(** C9: on every reachable table the array has an empty slot, the loop of
    [hashtable_get] and the loop of [hashtable_set_entry] return within
    [capacity] evaluations of their condition, and a whole [hashtable_set],
    whose resize probes an array of [capacity * 2] slots, returns within
    [capacity * 2] evaluations per loop. *)
Theorem probing_loops_terminate (t : HashTable) (key : string) (value : ptr)
    (p_length : option Z) (calloc_ok strdup_ok : bool) :
  reachable t ->
  (exists i v0, 0 <= i < capacity t
     /\ _entries t !! Z.to_nat i = Some (mkEntry None v0))
  /\ (exists r, hashtable_get (Z.to_nat (capacity t)) t key = Ret r)
  /\ (exists r,
        hashtable_set_entry (Z.to_nat (capacity t)) (_entries t) (capacity t)
          key value p_length strdup_ok = Ret r)
  /\ (exists r,
        hashtable_set (Z.to_nat (capacity t * 2)) t key value calloc_ok
          strdup_ok = Ret r).
Proof.
  intros Hr. pose proof (reachable_wf t Hr) as Hwf.
  pose proof (wf_has_room t Hwf) as Hroom.
  pose proof Hwf as [(n & Hn & Hcap) Hsize [Hl0 Hload] Hocc].
  pose proof (pow2_bounds n Hn) as Hb.
  split; [|split; [|split]].
  - destruct (empty_slot_exists _ Hroom) as (i & [k v0] & Hi & Hk).
    simpl in Hk. subst k. exists (Z.of_nat i), v0.
    apply lookup_lt_Some in Hi as Hlt. rewrite Nat2Z.id. split; [lia|exact Hi].
  - apply hashtable_get_terminates; [assumption|lia].
  - apply (hashtable_set_entry_terminates _ _ _ n); try assumption; lia.
  - apply hashtable_set_terminates; [assumption|lia].
Qed.

Lemma probing_loops_terminate_witness :
  reachable table_8
  /\ exists r, hashtable_get (Z.to_nat (capacity table_8)) table_8 "z" = Ret r.
Proof.
  split; [exact reachable_table_8|].
  destruct (probing_loops_terminate table_8 "z" 1 None true true
              reachable_table_8) as (_ & Hget & _).
  exact Hget.
Defined.

(** ** C10: the length counter never decreases *)

Lemma run_op_length (s s' : state) (o : op) :
  wf (table s) -> run_op o s = Ret s' ->
  wf (table s')
  /\ (length (table s') = length (table s)
      \/ length (table s') = length (table s) + 1)
  /\ (is_set o = false -> table s' = table s).
Proof.
  intros Hwf H. destruct o as [fuel k|fuel k v cok sok| |k0 v0|fuel];
    simpl in H.
  - destruct (hashtable_get fuel (table s) k); try discriminate.
    simpl in H. injection H as <-. auto.
  - destruct (hashtable_set fuel (table s) k v cok sok) as [[r t']| |] eqn:E;
      try discriminate.
    simpl in H. injection H as <-. simpl.
    apply hashtable_set_spec in E; [|assumption].
    destruct E as (Hwf' & _ & Hlen). split; [assumption|].
    split; [assumption|discriminate].
  - injection H as <-. auto.
  - injection H as <-. auto.
  - destruct (hashtable_next fuel (table s) (iter s)) as [[b it']| |];
      try discriminate.
    simpl in H. injection H as <-. auto.
Qed.

(** C10: from a reachable table, each public operation that returns leaves
    the length as it was or one higher, only [set] changes the table at all,
    and over any sequence of operations the length does not decrease. *)
Theorem length_never_decreases (s : state) :
  reachable (table s) ->
  (forall o s', run_op o s = Ret s' ->
     (length (table s') = length (table s)
      \/ length (table s') = length (table s) + 1)
     /\ (is_set o = false -> table s' = table s))
  /\ (forall ops s', run_ops ops s = Ret s' ->
        length (table s) <= length (table s')).
Proof.
  intros Hr. pose proof (reachable_wf _ Hr) as Hwf. clear Hr. split.
  - intros o s' H. apply run_op_length in H; [|assumption]. tauto.
  - intros ops. revert s Hwf.
    induction ops as [|o rest IH]; intros s Hwf s' H; simpl in H.
    + injection H as <-. lia.
    + destruct (run_op o s) as [s1| |] eqn:E; try discriminate.
      simpl in H. apply run_op_length in E; [|assumption].
      destruct E as (Hwf1 & Hlen & _).
      specialize (IH s1 Hwf1 s' H). lia.
Qed.

Lemma length_never_decreases_witness :
  reachable table_8
  /\ exists s',
       run_ops [OpGet 16 "a"; OpSet 32 "i" 9 true true; OpLength;
                OpCreateIterator None NULL; OpNext 17]
         (mkState table_8 (mkIterator None NULL 0)) = Ret s'
       /\ length table_8 <= length (table s').
Proof.
  split; [exact reachable_table_8|].
  eexists. split; [vm_compute; reflexivity|].
  destruct (length_never_decreases (mkState table_8 (mkIterator None NULL 0))
              reachable_table_8) as (_ & Hseq).
  apply (Hseq [OpGet 16 "a"; OpSet 32 "i" 9 true true; OpLength;
               OpCreateIterator None NULL; OpNext 17]).
  vm_compute. reflexivity.
Defined.

(** * Further properties of the code *)

(** ** C strings *)

Lemma byte_of_inj a b : byte_of a = byte_of b -> a = b.
Proof.
  unfold byte_of. intros H. apply N2Z.inj in H.
  rewrite <- (ascii_N_embedding a), <- (ascii_N_embedding b). congruence.
Qed.

Lemma cstr_idem s : cstr (cstr s) = cstr s.
Proof.
  induction s as [|c r IH]; simpl; [reflexivity|].
  destruct (byte_of c =? 0) eqn:E; simpl; [reflexivity|].
  rewrite E, IH. reflexivity.
Qed.

Lemma strcmp_zero_iff a : forall b, strcmp a b = 0 <-> cstr a = cstr b.
Proof.
  induction a as [|ca ra IH]; intros [|cb rb]; simpl.
  - tauto.
  - destruct (Z.eqb_spec (byte_of cb) 0); split; intros H;
      try reflexivity; try lia; discriminate.
  - destruct (Z.eqb_spec (byte_of ca) 0); split; intros H;
      try reflexivity; try lia; discriminate.
  - destruct (Z.eqb_spec (byte_of ca) (byte_of cb)) as [E|E].
    + apply byte_of_inj in E as ->.
      destruct (Z.eqb_spec (byte_of cb) 0); [tauto|].
      rewrite IH. split; intros H; [congruence|].
      injection H as H. exact H.
    + destruct (Z.eqb_spec (byte_of ca) 0) as [Ea|Ea];
        destruct (Z.eqb_spec (byte_of cb) 0) as [Eb|Eb];
        split; intros H; try lia; try discriminate.
      injection H as H _. congruence.
Qed.

Lemma strcmp_refl a : strcmp a a = 0.
Proof. apply strcmp_zero_iff. reflexivity. Qed.

Lemma strcmp_cstr_l_zero a b : strcmp (cstr a) b = 0 <-> strcmp a b = 0.
Proof. rewrite !strcmp_zero_iff, cstr_idem. tauto. Qed.

Lemma strcmp_trans_zero a b c :
  strcmp a b = 0 -> strcmp b c = 0 -> strcmp a c = 0.
Proof. rewrite !strcmp_zero_iff. congruence. Qed.

Lemma djb2_loop_cstr s : forall h, djb2_loop h (cstr s) = djb2_loop h s.
Proof.
  induction s as [|c r IH]; intros h; simpl; [reflexivity|].
  destruct (byte_of c =? 0) eqn:E; simpl; [reflexivity|].
  rewrite E. apply IH.
Qed.

Lemma djb2_hash_cstr s : djb2_hash (cstr s) = djb2_hash s.
Proof. apply djb2_loop_cstr. Qed.

Lemma djb2_hash_strcmp a b : strcmp a b = 0 -> djb2_hash a = djb2_hash b.
Proof.
  intros H. apply strcmp_zero_iff in H.
  rewrite <- (djb2_hash_cstr a), <- (djb2_hash_cstr b). congruence.
Qed.

Lemma home_strcmp c a b : strcmp a b = 0 -> home c a = home c b.
Proof. intros H. unfold home. rewrite (djb2_hash_strcmp a b H). reflexivity. Qed.

(** ** djb2 *)

Lemma djb2_step h c :
  wrap64 (wrap64 (wrap64 (Z.shiftl (wrap64 h) 5) + wrap64 h) + c)
  = wrap64 (h * 33 + c).
Proof.
  unfold wrap64. rewrite Z.shiftl_mul_pow2 by lia.
  change (2 ^ 5) with 32.
  rewrite Zmult_mod_idemp_l, <- Zplus_mod, Zplus_mod_idemp_l.
  f_equal. lia.
Qed.

Lemma djb2_loop_poly key : forall h,
  djb2_loop (wrap64 h) key = wrap64 (djb2_poly h key).
Proof.
  induction key as [|ch rest IH]; intros h; simpl; [reflexivity|].
  destruct (byte_of ch =? 0); [reflexivity|].
  rewrite djb2_step. apply IH.
Qed.

(** X1: [djb2_hash] is the polynomial hash [hash * 33 + c] over the bytes
    before the terminator, seeded with 5381 and reduced modulo 2^64; it lies
    in [0, 2^64), and it reads nothing after the first NUL byte. *)
Theorem djb2_hash_is_times_33 (key : string) :
  djb2_hash key = djb2_poly 5381 key mod 2 ^ 64
  /\ 0 <= djb2_hash key < 2 ^ 64
  /\ djb2_hash (cstr key) = djb2_hash key
  /\ (forall other, strcmp key other = 0 -> djb2_hash key = djb2_hash other).
Proof.
  assert (H : djb2_hash key = djb2_poly 5381 key mod 2 ^ 64).
  { unfold djb2_hash. change 5381 with (wrap64 5381) at 1.
    apply djb2_loop_poly. }
  split; [exact H|]. split; [|split].
  - rewrite H. apply Z.mod_pos_bound. lia.
  - apply djb2_hash_cstr.
  - intros other. apply djb2_hash_strcmp.
Qed.

Lemma djb2_hash_is_times_33_witness :
  strcmp "a" (String "a"%char (String Ascii.zero "b")) = 0
  /\ djb2_hash "a" = djb2_hash (String "a"%char (String Ascii.zero "b")).
Proof.
  split; [reflexivity|].
  destruct (djb2_hash_is_times_33 "a") as (_ & _ & _ & H).
  apply H. reflexivity.
Defined.

(** ** No access outside the slot array *)

Lemma hashtable_set_entry_no_fault fuel entries c n key value p_length
    strdup_ok :
  Z.of_nat (Datatypes.length entries) = c -> 0 <= n <= 63 -> c = 2 ^ n ->
  hashtable_set_entry fuel entries c key value p_length strdup_ok <> Fault.
Proof.
  intros Hlen Hn Hc. unfold hashtable_set_entry.
  assert (Hc63 : c <= 2 ^ 63) by (rewrite Hc; apply Z.pow_le_mono_r; lia).
  assert (Hhome : 0 <= Z.land (djb2_hash key) (wrap64 (c - 1)) < c)
    by (rewrite Hc; apply home_index_range; lia).
  pose proof (set_entry_loop_no_fault fuel entries c key value _
                Hlen Hc63 Hhome) as Hnf.
  destruct (set_entry_loop fuel entries c key value
              (Z.land (djb2_hash key) (wrap64 (c - 1)))) as [r| |];
    simpl; [|discriminate|congruence].
  destruct r as [i|k es]; [|discriminate].
  destruct p_length as [len|]; [|discriminate].
  destruct (strdup strdup_ok key); discriminate.
Qed.

Lemma expand_loop_no_fault fuel old c n :
  0 <= n <= 63 -> c = 2 ^ n ->
  forall k m new,
    Z.of_nat (Datatypes.length new) = c ->
    (m + k <= Datatypes.length old)%nat ->
    expand_loop fuel old (seqZ (Z.of_nat m) (Z.of_nat k)) new c <> Fault.
Proof.
  intros Hn Hc. induction k as [|k IH]; intros m new Hlen Hm.
  - simpl. discriminate.
  - rewrite seqZ_cons by lia. simpl. rewrite Nat2Z.id.
    destruct (old !! m) as [entry|] eqn:E.
    2:{ apply lookup_ge_None in E. lia. }
    replace (Z.succ (Z.of_nat m)) with (Z.of_nat (S m)) by lia.
    replace (Z.pred (Z.of_nat (S k))) with (Z.of_nat k) by lia.
    destruct (key entry) as [ek|] eqn:Ek; [|apply IH; [assumption|lia]].
    pose proof (hashtable_set_entry_no_fault fuel new c n ek (value entry)
                  None false Hlen Hn Hc) as Hnf.
    destruct (hashtable_set_entry fuel new c ek (value entry) None false)
      as [[[ret new1] pl]| |] eqn:Es; simpl; [|discriminate|congruence].
    apply (hashtable_set_entry_spec _ _ _ n) in Es; try assumption.
    apply IH; [|lia]. inversion Es; subst; lia.
Qed.

Lemma hashtable_expand_no_fault fuel t calloc_ok :
  wf t -> hashtable_expand fuel t calloc_ok <> Fault.
Proof.
  intros [(n & Hn & Hcap) Hsize [Hl0 Hload] Hocc].
  pose proof (pow2_bounds n Hn) as Hb.
  unfold hashtable_expand.
  destruct (wrap64 (capacity t * 2) <? capacity t) eqn:Hlt; [discriminate|].
  destruct calloc_ok; simpl; [|discriminate].
  apply Z.ltb_ge in Hlt. rewrite Hcap in *.
  destruct (double_capacity n Hn) as [[Hn62 Hw]|[-> Hw]]; [|lia].
  rewrite Hw in *.
  pose proof (expand_loop_no_fault fuel (_entries t) (2 ^ (n + 1)) (n + 1))
    as Hnf.
  specialize (Hnf ltac:(lia) eq_refl (Datatypes.length (_entries t)) O
                (calloc (2 ^ (n + 1)))).
  rewrite Hsize in Hnf. change (Z.of_nat 0) with 0 in Hnf.
  destruct (expand_loop fuel (_entries t) (seqZ 0 (2 ^ n))
              (calloc (2 ^ (n + 1))) (2 ^ (n + 1))) as [new'| |];
    simpl; [discriminate|discriminate|].
  exfalso. apply Hnf; [|lia|reflexivity].
  unfold calloc. rewrite length_replicate.
  assert (0 < 2 ^ (n + 1)) by (apply Z.pow_pos_nonneg; lia). lia.
Qed.

Lemma hashtable_set_no_fault fuel t key value calloc_ok strdup_ok :
  wf t -> hashtable_set fuel t key value calloc_ok strdup_ok <> Fault.
Proof.
  intros Hwf. pose proof Hwf as [(n & Hn & Hcap) Hsize [Hl0 Hload] Hocc].
  unfold hashtable_set.
  destruct (value =? NULL); [discriminate|].
  assert (Hlive : forall t1 n1,
             0 <= n1 <= 63 -> capacity t1 = 2 ^ n1 ->
             Z.of_nat (Datatypes.length (_entries t1)) = capacity t1 ->
             (hashtable_set_entry fuel (_entries t1) (capacity t1) key value
                (Some (length t1)) strdup_ok
              ≫= (fun '(ret, entries', p_length) =>
                    Ret (ret,
                         mkHashTable (capacity t1)
                           (match p_length with
                            | Some l => l
                            | None => length t1
                            end) entries'))) <> Fault).
  { intros t1 n1 Hn1 Hc1 Hs1.
    pose proof (hashtable_set_entry_no_fault fuel (_entries t1) (capacity t1)
                  n1 key value (Some (length t1)) strdup_ok Hs1 Hn1 Hc1).
    destruct (hashtable_set_entry fuel (_entries t1) (capacity t1) key value
                (Some (length t1)) strdup_ok) as [[[r es] pl]| |];
      simpl; [discriminate|discriminate|congruence]. }
  destruct (capacity t / 2 <=? length t).
  - pose proof (hashtable_expand_no_fault fuel t calloc_ok Hwf) as Hnf.
    destruct (hashtable_expand fuel t calloc_ok) as [[b t1]| |] eqn:E;
      simpl; [|discriminate|congruence].
    apply hashtable_expand_spec in E; [|assumption].
    destruct b; simpl; [|discriminate].
    destruct E as (_ & _ & _ & (n1 & Hn1 & Epow) & Esize & _).
    apply (Hlive t1 n1); [lia|assumption|assumption].
  - simpl. apply (Hlive t n); [lia|assumption|assumption].
Qed.

Lemma hashtable_next_index fuel t : forall it b it',
  hashtable_next fuel t it = Ret (b, it') ->
  0 <= _index it -> 0 <= _index it'.
Proof.
  induction fuel as [|fuel IH]; intros it b it' H Hi; simpl in H;
    [discriminate|].
  destruct (_index it <? capacity t).
  - destruct (_entries t !! Z.to_nat (_index it)) as [entry|];
      [|discriminate].
    destruct (key entry).
    + injection H as <- <-. simpl. apply Z.mod_pos_bound. lia.
    + eapply IH; [exact H|]. simpl. apply Z.mod_pos_bound. lia.
  - injection H as <- <-. assumption.
Qed.

Lemma hashtable_next_no_fault fuel t :
  Z.of_nat (Datatypes.length (_entries t)) = capacity t ->
  forall it, 0 <= _index it -> hashtable_next fuel t it <> Fault.
Proof.
  intros Hlen. induction fuel as [|fuel IH]; intros it Hi; simpl;
    [discriminate|].
  destruct (Z.ltb_spec (_index it) (capacity t)); [|discriminate].
  destruct (lookup_in_range (_entries t) (capacity t) (_index it) Hlen)
    as [entry ->]; [lia|].
  destruct (key entry); [discriminate|].
  apply IH. simpl. apply Z.mod_pos_bound. lia.
Qed.

Lemma iterate_no_fault fuel t :
  Z.of_nat (Datatypes.length (_entries t)) = capacity t ->
  forall it, 0 <= _index it -> iterate fuel t it <> Fault.
Proof.
  intros Hlen. induction fuel as [|fuel IH]; intros it Hi; [discriminate|].
  cbn [iterate].
  pose proof (hashtable_next_no_fault (S fuel) t Hlen it Hi) as Hnf.
  destruct (hashtable_next (S fuel) t it) as [[b it']| |] eqn:E;
    [|discriminate|congruence].
  apply hashtable_next_index in E; [|assumption].
  cbn [mbind res_bind bind]. destruct b; [|discriminate].
  specialize (IH it' E).
  destruct (iterate fuel t it'); simpl; [discriminate|discriminate|congruence].
Qed.

(** X2: on a reachable table no public operation reads or writes outside
    the slot array, whatever the loop budget: [get], [set] (with its resize),
    [next] from any iterator with a non-negative index, and a whole
    iteration from a new iterator. *)
Theorem no_access_outside_array (t : HashTable) :
  reachable t ->
  (forall fuel key, hashtable_get fuel t key <> Fault)
  /\ (forall fuel key value calloc_ok strdup_ok,
        hashtable_set fuel t key value calloc_ok strdup_ok <> Fault)
  /\ (forall fuel it, 0 <= _index it -> hashtable_next fuel t it <> Fault)
  /\ (forall fuel key0 value0,
        iterate fuel t (hashtable_create_iterator t key0 value0) <> Fault).
Proof.
  intros Hr. pose proof (reachable_wf t Hr) as Hwf.
  pose proof Hwf as [(n & Hn & Hcap) Hsize _ _].
  pose proof (pow2_bounds n Hn) as Hb.
  split; [|split; [|split]].
  - intros fuel key. unfold hashtable_get.
    apply get_loop_no_fault; [assumption|lia|].
    rewrite Hcap. apply home_index_range. lia.
  - intros. apply hashtable_set_no_fault. assumption.
  - intros. apply hashtable_next_no_fault; assumption.
  - intros. apply iterate_no_fault; [assumption|simpl; lia].
Qed.

Lemma no_access_outside_array_witness :
  reachable table_8
  /\ hashtable_next 3 table_8 (mkIterator None NULL 0) <> Fault.
Proof.
  split; [exact reachable_table_8|].
  destruct (no_access_outside_array table_8 reachable_table_8)
    as (_ & _ & Hnext & _).
  apply Hnext. simpl. lia.
Defined.

(** ** Slots hold a key and a non-null value, or neither *)

Lemma slots_ok_insert entries i e :
  slots_ok entries -> slot_ok e -> slots_ok (<[i := e]> entries).
Proof.
  intros H He j e' Hj. apply list_lookup_insert_Some in Hj.
  destruct Hj as [(_ & <- & _)|(_ & Hj)]; [exact He|eapply H; eauto].
Qed.

Lemma slots_ok_calloc n : slots_ok (calloc n).
Proof.
  intros i e Hi. unfold calloc in Hi. apply lookup_replicate in Hi.
  destruct Hi as [-> _]. reflexivity.
Qed.

Lemma set_entry_loop_slots fuel entries c key value : forall index r,
  slots_ok entries -> value <> NULL ->
  set_entry_loop fuel entries c key value index = Ret r ->
  match r with
  | AtEmpty _ => True
  | Wrote _ entries' => slots_ok entries'
  end.
Proof.
  induction fuel as [|fuel IH]; intros index r Hok Hv H; simpl in H;
    [discriminate|].
  destruct (entries !! Z.to_nat index) as [[[ek|] v0]|] eqn:E;
    [| |discriminate].
  - destruct (negb (strcmp key ek =? 0)).
    + injection H as <-. apply slots_ok_insert; [assumption|].
      destruct (Hok _ _ E) as [_ Hek]. split; assumption.
    + eapply IH; eauto.
  - injection H as <-. exact I.
Qed.

Lemma hashtable_set_entry_slots fuel entries c key value p_length strdup_ok
    ret entries' p_length' :
  slots_ok entries -> value <> NULL ->
  (p_length = None -> cstr key = key) ->
  hashtable_set_entry fuel entries c key value p_length strdup_ok
    = Ret (ret, entries', p_length') ->
  slots_ok entries'.
Proof.
  intros Hok Hv Hk H. unfold hashtable_set_entry in H.
  destruct (set_entry_loop fuel entries c key value
              (Z.land (djb2_hash key) (wrap64 (c - 1)))) as [r| |] eqn:E;
    try discriminate.
  apply set_entry_loop_slots in E; try assumption.
  destruct r as [i|k es]; simpl in H.
  - destruct p_length as [len|].
    + destruct strdup_ok; simpl in H; injection H as <- <- <-.
      * apply slots_ok_insert; [assumption|].
        split; [assumption|apply cstr_idem].
      * assumption.
    + injection H as <- <- <-.
      apply slots_ok_insert; [assumption|]. split; [assumption|auto].
  - injection H as <- <- <-. assumption.
Qed.

Lemma expand_loop_slots fuel old c : forall indices new new',
  slots_ok old -> slots_ok new ->
  expand_loop fuel old indices new c = Ret new' ->
  slots_ok new'.
Proof.
  induction indices as [|i rest IH]; intros new new' Hold Hnew H; simpl in H.
  - injection H as <-. assumption.
  - destruct (old !! Z.to_nat i) as [entry|] eqn:E; [|discriminate].
    pose proof (Hold _ _ E) as He. unfold slot_ok in He.
    destruct (key entry) as [ek|] eqn:Ek.
    + destruct (hashtable_set_entry fuel new c ek (value entry) None false)
        as [[[ret new1] pl]| |] eqn:Es; try discriminate.
      simpl in H. destruct He as [Hv Hk].
      apply hashtable_set_entry_slots in Es; auto.
      eapply IH; eauto.
    + eapply IH; eauto.
Qed.

(** What a successful [hashtable_expand] computed. *)
Lemma hashtable_expand_inv fuel t calloc_ok t' :
  wf t ->
  hashtable_expand fuel t calloc_ok = Ret (true, t') ->
  exists n, 4 <= n <= 62 /\ capacity t = 2 ^ n /\ capacity t' = 2 ^ (n + 1)
            /\ length t' = length t
            /\ expand_loop fuel (_entries t) (seqZ 0 (capacity t))
                 (calloc (capacity t')) (capacity t') = Ret (_entries t').
Proof.
  intros [(n & Hn & Hcap) Hsize Hload Hocc] H. unfold hashtable_expand in H.
  pose proof (pow2_bounds n Hn) as Hb.
  destruct (Z.ltb_spec (wrap64 (capacity t * 2)) (capacity t)) as [Hlt|Hge];
    [discriminate|].
  destruct calloc_ok; simpl in H; [|discriminate].
  rewrite Hcap in *.
  destruct (double_capacity n Hn) as [[Hn62 Hw]|[-> Hw]]; [|lia].
  rewrite Hw in *.
  destruct (expand_loop fuel (_entries t) (seqZ 0 (2 ^ n))
              (calloc (2 ^ (n + 1))) (2 ^ (n + 1))) as [new'| |] eqn:E;
    try discriminate.
  simpl in H. injection H as <-. simpl.
  exists n. repeat split; auto; lia.
Qed.

Lemma hashtable_set_slots fuel t key value calloc_ok strdup_ok ret t' :
  wf t -> slots_ok (_entries t) ->
  hashtable_set fuel t key value calloc_ok strdup_ok = Ret (ret, t') ->
  slots_ok (_entries t').
Proof.
  intros Hwf Hok H. unfold hashtable_set in H.
  destruct (Z.eqb_spec value NULL) as [|Hv].
  { injection H as <- <-. assumption. }
  assert (Hx : forall b t1,
             (if capacity t / 2 <=? length t
              then hashtable_expand fuel t calloc_ok
              else Ret (true, t)) = Ret (b, t1) ->
             slots_ok (_entries t1)).
  { intros b t1 Hx. destruct (capacity t / 2 <=? length t).
    - destruct b.
      + apply hashtable_expand_inv in Hx; [|assumption].
        destruct Hx as (n & _ & _ & _ & _ & E).
        eapply expand_loop_slots; [exact Hok|apply slots_ok_calloc|exact E].
      + apply hashtable_expand_spec in Hx; [|assumption].
        destruct Hx as [-> _]. assumption.
    - injection Hx as <- <-. assumption. }
  destruct (if capacity t / 2 <=? length t
            then hashtable_expand fuel t calloc_ok
            else Ret (true, t)) as [[b t1]| |]; try discriminate.
  specialize (Hx b t1 eq_refl). simpl in H.
  destruct b; simpl in H.
  - destruct (hashtable_set_entry fuel (_entries t1) (capacity t1) key value
                (Some (length t1)) strdup_ok) as [[[r es] pl]| |] eqn:Es;
      try discriminate.
    simpl in H. injection H as <- <-. simpl.
    eapply hashtable_set_entry_slots; [exact Hx|exact Hv| |exact Es].
    discriminate.
  - injection H as <- <-. assumption.
Qed.

Lemma reachable_slots_ok t : reachable t -> slots_ok (_entries t).
Proof.
  induction 1 as [t Hc|fuel t key value cok sok ret t' Hr IH Hs].
  - apply hashtable_create_spec in Hc. destruct Hc as [-> _].
    apply slots_ok_calloc.
  - eapply hashtable_set_slots; [apply reachable_wf| |]; eauto.
Qed.

(** X3: in every reachable table an empty slot has a null value and an
    occupied slot has a non-null value and a key without NUL bytes, the
    array has exactly [capacity] slots, and at most [length] of them are
    occupied. *)
Theorem slot_array_invariant (t : HashTable) :
  reachable t ->
  Z.of_nat (Datatypes.length (_entries t)) = capacity t
  /\ Z.of_nat (n_occupied (_entries t)) <= hashtable_length t
  /\ (forall i v, _entries t !! i = Some (mkEntry None v) -> v = NULL)
  /\ (forall i k v, _entries t !! i = Some (mkEntry (Some k) v) ->
        v <> NULL /\ cstr k = k).
Proof.
  intros Hr. pose proof (reachable_wf t Hr) as [_ Hsize _ Hocc].
  pose proof (reachable_slots_ok t Hr) as Hok.
  split; [assumption|]. split; [assumption|]. split.
  - intros i v Hi. exact (Hok _ _ Hi).
  - intros i k v Hi. exact (Hok _ _ Hi).
Qed.

Lemma slot_array_invariant_witness :
  reachable table_8
  /\ Z.of_nat (n_occupied (_entries table_8)) <= hashtable_length table_8.
Proof.
  split; [exact reachable_table_8|].
  destruct (slot_array_invariant table_8 reachable_table_8) as (_ & H & _).
  exact H.
Defined.

(** ** Stored keys lie on a run of equal keys from their home slot *)

Lemma home_range c n key : 0 <= n <= 63 -> c = 2 ^ n -> 0 <= home c key < c.
Proof. intros Hn ->. apply home_index_range. assumption. Qed.

Lemma probe_run_cstr entries c key d :
  probe_run entries c key d -> probe_run entries c (cstr key) d.
Proof.
  intros H d' Hd. destruct (H d' Hd) as (k' & v' & Hs & Heq).
  exists k', v'. unfold home in *. rewrite djb2_hash_cstr.
  split; [assumption|]. apply strcmp_cstr_l_zero. assumption.
Qed.

Lemma runs_ok_calloc n c : runs_ok (calloc n) c.
Proof.
  intros i k v Hi. unfold calloc in Hi. apply lookup_replicate in Hi.
  destruct Hi as [Hi _]. discriminate.
Qed.

Lemma runs_ok_overwrite entries c i ek v0 v :
  entries !! i = Some (mkEntry (Some ek) v0) ->
  runs_ok entries c ->
  runs_ok (<[i := mkEntry (Some ek) v]> entries) c.
Proof.
  intros Hi H.
  assert (Hlt : (i < Datatypes.length entries)%nat)
    by (eapply lookup_lt_Some; eauto).
  assert (H1 : forall j k' v',
             entries !! j = Some (mkEntry (Some k') v') ->
             exists v'', <[i := mkEntry (Some ek) v]> entries !! j
                         = Some (mkEntry (Some k') v'')).
  { intros j k' v' Hj. destruct (Nat.eq_dec i j) as [<-|Hne].
    - rewrite list_lookup_insert_eq by assumption.
      rewrite Hi in Hj. injection Hj as <- _. eauto.
    - rewrite list_lookup_insert_ne by assumption. eauto. }
  intros j k v1 Hj.
  assert (Hold : exists v2, entries !! j = Some (mkEntry (Some k) v2)).
  { apply list_lookup_insert_Some in Hj.
    destruct Hj as [(<- & Heq & _)|(_ & Hj)]; [|eauto].
    injection Heq as <- _. eauto. }
  destruct Hold as (v2 & Hold).
  destruct (H j k v2 Hold) as (d & Hd & Hpos & Hrun).
  exists d. split; [assumption|]. split; [assumption|].
  intros d' Hd'. destruct (Hrun d' Hd') as (k' & v' & Hs & Heq).
  destruct (H1 _ _ _ Hs) as (v'' & Hs'). eauto.
Qed.

Lemma runs_ok_insert_empty entries c i knew v d v0 :
  entries !! i = Some (mkEntry None v0) ->
  0 <= d -> Z.of_nat i = (home c knew + d) mod c ->
  probe_run entries c knew d ->
  runs_ok entries c ->
  runs_ok (<[i := mkEntry (Some knew) v]> entries) c.
Proof.
  intros Hi Hd Hpos Hrun H.
  assert (H1 : forall j k' v',
             entries !! j = Some (mkEntry (Some k') v') ->
             <[i := mkEntry (Some knew) v]> entries !! j
             = Some (mkEntry (Some k') v')).
  { intros j k' v' Hj. rewrite list_lookup_insert_ne; [assumption|].
    intros <-. congruence. }
  assert (H2 : forall k dk, probe_run entries c k dk ->
                 probe_run (<[i := mkEntry (Some knew) v]> entries) c k dk).
  { intros k dk Hk d' Hd'. destruct (Hk d' Hd') as (k' & v' & Hs & Heq).
    exists k', v'. split; [apply H1; assumption|assumption]. }
  intros j k v1 Hj. apply list_lookup_insert_Some in Hj.
  destruct Hj as [(<- & Heq & _)|(_ & Hj)].
  - injection Heq as <- _. exists d. auto.
  - destruct (H j k v1 Hj) as (dk & Hdk & Hposk & Hrunk).
    exists dk. auto.
Qed.

Lemma set_entry_loop_run fuel entries c key value :
  Z.of_nat (Datatypes.length entries) = c -> c <= 2 ^ 63 ->
  forall index d r,
    0 <= d -> 0 <= index < c -> index = (home c key + d) mod c ->
    probe_run entries c key d ->
    set_entry_loop fuel entries c key value index = Ret r ->
    match r with
    | AtEmpty i =>
        exists d', 0 <= d' /\ i = (home c key + d') mod c
                   /\ probe_run entries c key d'
    | Wrote _ _ => True
    end.
Proof.
  intros Hlen Hc.
  induction fuel as [|fuel IH]; intros index d r Hd Hi Hpos Hrun H;
    simpl in H; [discriminate|].
  destruct (entries !! Z.to_nat index) as [[[ek|] v0]|] eqn:E;
    [| |discriminate].
  - destruct (Z.eqb_spec (strcmp key ek) 0) as [Heq|Hne]; simpl in H.
    + change (set_entry_loop fuel entries c key value (next_index c index)
              = Ret r) in H.
      apply (IH _ (d + 1)) in H; try assumption; try lia.
      * apply next_index_range; assumption.
      * rewrite next_index_mod by assumption. rewrite Hpos.
        rewrite Zplus_mod_idemp_l. f_equal. lia.
      * intros d' Hd'. destruct (Z.eq_dec d' d) as [->|Hnd].
        -- rewrite <- Hpos. eauto.
        -- apply Hrun. lia.
    + injection H as <-. exact I.
  - injection H as <-. eauto.
Qed.

Lemma hashtable_set_entry_runs fuel entries c n key value p_length strdup_ok
    ret entries' p_length' :
  Z.of_nat (Datatypes.length entries) = c -> 0 <= n <= 63 -> c = 2 ^ n ->
  runs_ok entries c ->
  hashtable_set_entry fuel entries c key value p_length strdup_ok
    = Ret (ret, entries', p_length') ->
  runs_ok entries' c.
Proof.
  intros Hlen Hn Hc Hruns H. unfold hashtable_set_entry in H.
  assert (Hc63 : c <= 2 ^ 63) by (rewrite Hc; apply Z.pow_le_mono_r; lia).
  pose proof (home_range c n key Hn Hc) as Hhome.
  change (Z.land (djb2_hash key) (wrap64 (c - 1))) with (home c key) in H.
  destruct (set_entry_loop fuel entries c key value (home c key))
    as [r| |] eqn:E; try discriminate.
  pose proof (set_entry_loop_spec _ _ _ _ _ _ _ Hlen Hc63 Hhome E) as Hspec.
  apply (set_entry_loop_run _ _ _ _ _ Hlen Hc63 _ 0) in E;
    [|lia|assumption| |intros d' Hd'; lia].
  2:{ rewrite Z.add_0_r, Z.mod_small by lia. reflexivity. }
  destruct r as [i|k es]; simpl in H.
  - destruct Hspec as (Hi & v0 & Hslot).
    destruct E as (d & Hd & Hpos & Hrun).
    assert (Hpos' : Z.of_nat (Z.to_nat i) = (home c key + d) mod c) by lia.
    destruct p_length as [len|].
    + destruct strdup_ok; simpl in H; injection H as <- <- <-;
        [|assumption].
      eapply runs_ok_insert_empty; eauto.
      * unfold home in *. rewrite djb2_hash_cstr. exact Hpos'.
      * apply probe_run_cstr. assumption.
    + injection H as <- <- <-.
      eapply runs_ok_insert_empty; eauto.
  - destruct Hspec as (i & v0 & Hi & Hslot & Hne & ->).
    injection H as <- <- <-.
    eapply runs_ok_overwrite; eauto.
Qed.

Lemma expand_loop_runs fuel old c n :
  0 <= n <= 63 -> c = 2 ^ n ->
  forall indices new new',
    Z.of_nat (Datatypes.length new) = c -> runs_ok new c ->
    expand_loop fuel old indices new c = Ret new' ->
    runs_ok new' c.
Proof.
  intros Hn Hc.
  induction indices as [|i rest IH]; intros new new' Hlen Hruns H;
    simpl in H.
  - injection H as <-. assumption.
  - destruct (old !! Z.to_nat i) as [entry|] eqn:E; [|discriminate].
    destruct (key entry) as [ek|] eqn:Ek.
    + destruct (hashtable_set_entry fuel new c ek (value entry) None false)
        as [[[ret new1] pl]| |] eqn:Es; try discriminate.
      simpl in H.
      pose proof (hashtable_set_entry_runs _ _ _ _ _ _ _ _ _ _ _
                    Hlen Hn Hc Hruns Es) as Hruns1.
      apply (hashtable_set_entry_spec _ _ _ n) in Es; try assumption.
      eapply IH; [|exact Hruns1|exact H].
      inversion Es; subst; lia.
    + eapply IH; eauto.
Qed.

Lemma hashtable_set_runs fuel t key value calloc_ok strdup_ok ret t' :
  wf t -> runs_ok (_entries t) (capacity t) ->
  hashtable_set fuel t key value calloc_ok strdup_ok = Ret (ret, t') ->
  runs_ok (_entries t') (capacity t').
Proof.
  intros Hwf Hruns H. unfold hashtable_set in H.
  destruct (value =? NULL). { injection H as <- <-. assumption. }
  assert (Hx : forall b t1,
             (if capacity t / 2 <=? length t
              then hashtable_expand fuel t calloc_ok
              else Ret (true, t)) = Ret (b, t1) ->
             runs_ok (_entries t1) (capacity t1)
             /\ (b = true -> exists n1, 0 <= n1 <= 63 /\ capacity t1 = 2 ^ n1
                   /\ Z.of_nat (Datatypes.length (_entries t1))
                      = capacity t1)).
  { intros b t1 Hx. destruct (capacity t / 2 <=? length t).
    - destruct b.
      + pose proof (hashtable_expand_spec _ _ _ _ _ Hwf Hx)
          as (_ & _ & _ & (n1 & Hn1 & Hc1) & Hs1 & _).
        apply hashtable_expand_inv in Hx; [|assumption].
        destruct Hx as (n & Hn & _ & Hc' & _ & E).
        split; [|intros _; exists n1; repeat split; auto; lia].
        eapply (expand_loop_runs _ _ _ n1); [| |
          |apply runs_ok_calloc|exact E]; [lia|assumption|].
        unfold calloc. rewrite length_replicate.
        pose proof (pow2_bounds n1 Hn1). lia.
      + apply hashtable_expand_spec in Hx; [|assumption].
        destruct Hx as [-> _]. split; [assumption|discriminate].
    - injection Hx as <- <-. split; [assumption|]. intros _.
      destruct Hwf as [(n & Hn & Hcap) Hsize _ _].
      exists n. repeat split; auto; lia. }
  destruct (if capacity t / 2 <=? length t
            then hashtable_expand fuel t calloc_ok
            else Ret (true, t)) as [[b t1]| |]; try discriminate.
  destruct (Hx b t1 eq_refl) as [Hr1 Hw1]. simpl in H.
  destruct b; simpl in H.
  - destruct (Hw1 eq_refl) as (n1 & Hn1 & Hc1 & Hs1).
    destruct (hashtable_set_entry fuel (_entries t1) (capacity t1) key value
                (Some (length t1)) strdup_ok) as [[[r es] pl]| |] eqn:Es;
      try discriminate.
    simpl in H. injection H as <- <-. simpl.
    eapply hashtable_set_entry_runs; eauto.
  - injection H as <- <-. assumption.
Qed.

Lemma reachable_runs_ok t : reachable t -> runs_ok (_entries t) (capacity t).
Proof.
  induction 1 as [t Hc|fuel t key value cok sok ret t' Hr IH Hs].
  - apply hashtable_create_spec in Hc. destruct Hc as [-> _].
    apply runs_ok_calloc.
  - eapply hashtable_set_runs; [apply reachable_wf| |]; eauto.
Qed.

Lemma get_present fuel t key :
  wf t -> slots_ok (_entries t) -> runs_ok (_entries t) (capacity t) ->
  holds_key (_entries t) key ->
  exists v, hashtable_get (S fuel) t key = Ret v /\ v <> NULL.
Proof.
  intros [(n & Hn & Hcap) Hsize _ _] Hok Hruns (i & k & v0 & Hi & Heq).
  pose proof (pow2_bounds n Hn) as Hb.
  pose proof (home_range (capacity t) n k ltac:(lia) Hcap) as Hhome.
  destruct (Hruns i k v0 Hi) as (d & Hd & Hpos & Hrun).
  assert (Hfirst : exists k' v',
             _entries t !! Z.to_nat (home (capacity t) k)
               = Some (mkEntry (Some k') v') /\ strcmp key k' = 0).
  { destruct (Z.eq_dec d 0) as [->|Hd0].
    - rewrite Z.add_0_r, Z.mod_small in Hpos by lia.
      rewrite <- Hpos, Nat2Z.id. eauto.
    - destruct (Hrun 0) as (k' & v' & Hs & Hk'); [lia|].
      rewrite Z.add_0_r, Z.mod_small in Hs by lia.
      exists k', v'. split; [assumption|].
      eapply strcmp_trans_zero; eauto. }
  destruct Hfirst as (k' & v' & Hs & Hk').
  exists v'. split.
  - unfold hashtable_get.
    change (Z.land (djb2_hash key) (wrap64 (capacity t - 1)))
      with (home (capacity t) key).
    rewrite (home_strcmp _ key k Heq). simpl. rewrite Hs, Hk'. reflexivity.
  - exact (proj1 (Hok _ _ Hs)).
Qed.

(** X4: on a reachable table [get] returns a non-null value for [key]
    exactly when some slot holds a key equal to [key]; the value returned is
    then the value of such a slot. *)
Theorem get_finds_exactly_stored_keys (t : HashTable) (key : string) :
  reachable t ->
  (holds_key (_entries t) key <->
   exists v, hashtable_get (Z.to_nat (capacity t)) t key = Ret v /\ v <> NULL)
  /\ (forall fuel v,
        hashtable_get fuel t key = Ret v -> v <> NULL ->
        exists i k, _entries t !! i = Some (mkEntry (Some k) v)
                    /\ strcmp key k = 0).
Proof.
  intros Hr. pose proof (reachable_wf t Hr) as Hwf.
  assert (Hfound : forall fuel v,
             hashtable_get fuel t key = Ret v -> v <> NULL ->
             exists i k, _entries t !! i = Some (mkEntry (Some k) v)
                         /\ strcmp key k = 0).
  { intros fuel v Hg Hv. unfold hashtable_get in Hg.
    apply get_loop_found in Hg. destruct Hg as [->|Hg]; [congruence|].
    exact Hg. }
  split; [split|exact Hfound].
  - intros Hk.
    assert (Hcap : exists m, Z.to_nat (capacity t) = S m).
    { destruct Hwf as [(n & Hn & Hcap) _ _ _].
      pose proof (pow2_bounds n Hn). exists (Z.to_nat (capacity t) - 1)%nat.
      lia. }
    destruct Hcap as [m ->].
    apply get_present; auto using reachable_slots_ok, reachable_runs_ok.
  - intros (v & Hg & Hv). destruct (Hfound _ _ Hg Hv) as (i & k & Hi & Heq).
    exists i, k, v. auto.
Qed.

Lemma get_finds_exactly_stored_keys_witness :
  reachable table_8
  /\ holds_key (_entries table_8) "c"
  /\ exists v, hashtable_get (Z.to_nat (capacity table_8)) table_8 "c" = Ret v
               /\ v <> NULL.
Proof.
  split; [exact reachable_table_8|].
  assert (Hk : holds_key (_entries table_8) "c").
  { exists 8%nat, "c"%string, 3. split; reflexivity. }
  split; [exact Hk|].
  destruct (get_finds_exactly_stored_keys table_8 "c" reachable_table_8)
    as [[Hfwd _] _].
  exact (Hfwd Hk).
Defined.

(** ** The steps of a returning [hashtable_set] *)

Lemma half_capacity n : 4 <= n <= 63 -> 2 ^ n = 2 * (2 ^ n / 2).
Proof.
  intros Hn. replace n with (1 + (n - 1)) at 1 by lia.
  rewrite Z.pow_add_r, Z.pow_1_r by lia.
  replace n with (1 + (n - 1)) at 2 by lia.
  rewrite Z.pow_add_r, Z.pow_1_r by lia.
  rewrite (Z.mul_comm 2 (2 ^ (n - 1))), Z.div_mul by lia. lia.
Qed.

Lemma hashtable_set_inv fuel t key value calloc_ok strdup_ok ret t' :
  wf t ->
  hashtable_set fuel t key value calloc_ok strdup_ok = Ret (ret, t') ->
  (value = NULL /\ ret = None /\ t' = t)
  \/ (value <> NULL /\ capacity t / 2 <= length t
      /\ hashtable_expand fuel t calloc_ok = Ret (false, t)
      /\ ret = None /\ t' = t)
  \/ (value <> NULL
      /\ exists t1 es pl,
          before_insert fuel t calloc_ok t1
          /\ hashtable_set_entry fuel (_entries t1) (capacity t1) key value
               (Some (length t1)) strdup_ok = Ret (ret, es, pl)
          /\ t' = mkHashTable (capacity t1)
                    (match pl with Some l => l | None => length t1 end) es).
Proof.
  intros Hwf H. unfold hashtable_set in H.
  destruct (Z.eqb_spec value NULL) as [Hv|Hv].
  { injection H as <- <-. auto. }
  right. destruct (Z.leb_spec (capacity t / 2) (length t)) as [Hfull|Hroom].
  - destruct (hashtable_expand fuel t calloc_ok) as [[b t1]| |] eqn:E;
      try discriminate.
    simpl in H. destruct b; simpl in H.
    + right. split; [assumption|].
      destruct (hashtable_set_entry fuel (_entries t1) (capacity t1) key value
                  (Some (length t1)) strdup_ok) as [[[r es] pl]| |] eqn:Es;
        try discriminate.
      simpl in H. injection H as <- <-.
      exists t1, es, pl. split; [left; auto|]. split; [exact Es|reflexivity].
    + left. pose proof (hashtable_expand_spec _ _ _ _ _ Hwf E) as [-> _].
      injection H as <- <-. auto.
  - right. split; [assumption|]. simpl in H.
    destruct (hashtable_set_entry fuel (_entries t) (capacity t) key value
                (Some (length t)) strdup_ok) as [[[r es] pl]| |] eqn:Es;
      try discriminate.
    simpl in H. injection H as <- <-.
    exists t, es, pl. split; [right; auto|]. split; [exact Es|reflexivity].
Qed.

Lemma before_insert_wf fuel t calloc_ok t1 :
  wf t -> before_insert fuel t calloc_ok t1 ->
  (exists n, 4 <= n <= 63 /\ capacity t1 = 2 ^ n)
  /\ Z.of_nat (Datatypes.length (_entries t1)) = capacity t1
  /\ length t1 = length t
  /\ (length t1 + 1) * 2 <= capacity t1
  /\ Z.of_nat (n_occupied (_entries t1)) <= length t1.
Proof.
  intros Hwf [[Hfull E]|[Hroom ->]];
    pose proof Hwf as [(n & Hn & Hcap) Hsize [Hl0 Hload] Hocc];
    pose proof (pow2_bounds n Hn) as Hb.
  - apply hashtable_expand_spec in E; [|assumption].
    destruct E as (Ecap & Elen & _ & Epow & Esize & Eocc).
    repeat split; try assumption; lia.
  - pose proof (half_capacity n Hn) as Heven. rewrite <- Hcap in Heven.
    repeat split; eauto; lia.
Qed.

Lemma hashtable_set_entry_stores fuel entries c n key value p_length
    strdup_ok k' entries' p_length' :
  Z.of_nat (Datatypes.length entries) = c -> 0 <= n <= 63 -> c = 2 ^ n ->
  hashtable_set_entry fuel entries c key value p_length strdup_ok
    = Ret (Some k', entries', p_length') ->
  exists i, entries' !! i = Some (mkEntry (Some k') value).
Proof.
  intros Hlen Hn Hc H. unfold hashtable_set_entry in H.
  assert (Hc63 : c <= 2 ^ 63) by (rewrite Hc; apply Z.pow_le_mono_r; lia).
  pose proof (home_range c n key Hn Hc) as Hhome. unfold home in Hhome.
  destruct (set_entry_loop fuel entries c key value
              (Z.land (djb2_hash key) (wrap64 (c - 1)))) as [r| |] eqn:E;
    try discriminate.
  apply set_entry_loop_spec in E; try assumption.
  destruct r as [i|k es]; simpl in H.
  - destruct E as (Hi & v0 & Hslot). apply lookup_lt_Some in Hslot.
    destruct p_length as [len|].
    + destruct strdup_ok; simpl in H; [|discriminate].
      injection H as <- <- <-. exists (Z.to_nat i).
      apply list_lookup_insert_eq. assumption.
    + injection H as <- <- <-. exists (Z.to_nat i).
      apply list_lookup_insert_eq. assumption.
  - destruct E as (i & v0 & Hi & Hslot & Hne & ->).
    apply lookup_lt_Some in Hslot.
    injection H as <- <- <-. exists (Z.to_nat i).
    apply list_lookup_insert_eq. assumption.
Qed.

(** X5: when [set] on a reachable table returns a key pointer, the value
    passed is non-null and the table now has a slot holding exactly the
    returned key with that value. *)
Theorem set_stores_value_under_returned_key (fuel : nat) (t : HashTable)
    (key : string) (value : ptr) (calloc_ok strdup_ok : bool) (k' : string)
    (t' : HashTable) :
  reachable t ->
  hashtable_set fuel t key value calloc_ok strdup_ok = Ret (Some k', t') ->
  value <> NULL
  /\ exists i, _entries t' !! i = Some (mkEntry (Some k') value).
Proof.
  intros Hr H. pose proof (reachable_wf t Hr) as Hwf.
  destruct (hashtable_set_inv _ _ _ _ _ _ _ _ Hwf H)
    as [(_ & Hn & _)|[(_ & _ & _ & Hn & _)|(Hv & t1 & es & pl & Hb & Es & ->)]];
    try discriminate.
  split; [assumption|].
  destruct (before_insert_wf _ _ _ _ Hwf Hb) as ((n & Hn & Hc) & Hs & _).
  simpl. eapply (hashtable_set_entry_stores _ _ _ n); eauto. lia.
Qed.

Lemma set_stores_value_under_returned_key_witness :
  reachable table_8
  /\ exists k' t',
       hashtable_set 32 table_8 "i" 9 true true = Ret (Some k', t')
       /\ exists i, _entries t' !! i = Some (mkEntry (Some k') 9).
Proof.
  split; [exact reachable_table_8|].
  eexists. eexists. split; [vm_compute; reflexivity|].
  eapply (set_stores_value_under_returned_key 32 table_8 "i" 9 true true).
  - exact reachable_table_8.
  - vm_compute. reflexivity.
Defined.

(** X6: [set] changes the capacity exactly when the value is non-null, the
    table is exactly half full, the new array is allocated and the doubled
    capacity fits in 64 bits; the new capacity is then twice the old one. *)
Theorem set_grows_exactly_when_half_full (fuel : nat) (t : HashTable)
    (key : string) (value : ptr) (calloc_ok strdup_ok : bool)
    (ret : option string) (t' : HashTable) :
  reachable t ->
  hashtable_set fuel t key value calloc_ok strdup_ok = Ret (ret, t') ->
  (capacity t' <> capacity t <->
   value <> NULL /\ length t * 2 = capacity t /\ calloc_ok = true
   /\ capacity t < 2 ^ 63)
  /\ (capacity t' <> capacity t -> capacity t' = capacity t * 2).
Proof.
  intros Hr H. pose proof (reachable_wf t Hr) as Hwf.
  pose proof Hwf as [(n & Hn & Hcap) Hsize [Hl0 Hload] Hocc].
  pose proof (pow2_bounds n Hn) as Hb.
  pose proof (half_capacity n Hn) as Heven. rewrite <- Hcap in Heven.
  destruct (hashtable_set_inv _ _ _ _ _ _ _ _ Hwf H)
    as [(Hv & _ & ->)|[(Hv & Hfull & E & _ & ->)
                      |(Hv & t1 & es & pl & Hbi & Es & ->)]].
  - split; [|congruence]. split; [congruence|tauto].
  - split; [|congruence]. split; [congruence|].
    intros (_ & _ & -> & Hlt). exfalso.
    apply hashtable_expand_spec in E; [|assumption].
    destruct E as [_ [E|E]]; [|discriminate].
    rewrite wrap64_small in E by lia. lia.
  - simpl. destruct Hbi as [[Hfull E]|[Hroom ->]].
    + apply hashtable_expand_spec in E; [|assumption].
      destruct E as (Ecap & _ & Ecok & (n1 & Hn1 & Epow) & _).
      pose proof (pow2_bounds n1 Hn1).
      split; [|intros _; assumption].
      split; [|lia]. intros _. repeat split; try assumption; lia.
    + split; [|congruence]. split; [congruence|]. lia.
Qed.

Lemma set_grows_exactly_when_half_full_witness :
  reachable table_8
  /\ exists ret t',
       hashtable_set 32 table_8 "i" 9 true true = Ret (ret, t')
       /\ capacity t' = capacity table_8 * 2.
Proof.
  split; [exact reachable_table_8|].
  eexists. eexists. split; [vm_compute; reflexivity|].
  eapply (set_grows_exactly_when_half_full 32 table_8 "i" 9 true true).
  - exact reachable_table_8.
  - vm_compute. reflexivity.
  - vm_compute. discriminate.
Defined.

(** X7: on a reachable table a [set] with a non-null value whose key
    duplication succeeds, and whose resize, if one is needed, can allocate
    and does not overflow, returns a key pointer. *)
Theorem set_succeeds_when_allocations_do (t : HashTable) (key : string)
    (value : ptr) (calloc_ok : bool) :
  reachable t ->
  value <> NULL ->
  length t * 2 < capacity t \/ (calloc_ok = true /\ capacity t < 2 ^ 63) ->
  exists k' t',
    hashtable_set (Z.to_nat (capacity t * 2)) t key value calloc_ok true
    = Ret (Some k', t').
Proof.
  intros Hr Hv Hroom. pose proof (reachable_wf t Hr) as Hwf.
  pose proof Hwf as [(n & Hn & Hcap) Hsize [Hl0 Hload] Hocc].
  pose proof (pow2_bounds n Hn) as Hb.
  pose proof (half_capacity n Hn) as Heven. rewrite <- Hcap in Heven.
  destruct (hashtable_set_terminates (Z.to_nat (capacity t * 2)) t key value
              calloc_ok true Hwf) as [[ret t'] H]; [lia|].
  destruct ret as [k'|]; [eauto|]. exfalso.
  destruct (hashtable_set_inv _ _ _ _ _ _ _ _ Hwf H)
    as [(Hv0 & _)|[(_ & Hfull & E & _)|(_ & t1 & es & pl & Hbi & Es & _)]].
  - contradiction.
  - apply hashtable_expand_spec in E; [|assumption].
    destruct E as [_ E]. destruct Hroom as [Hroom|[-> Hlt]]; [lia|].
    destruct E as [E|E]; [|discriminate].
    rewrite wrap64_small in E by lia. lia.
  - destruct (before_insert_wf _ _ _ _ Hwf Hbi)
      as ((n1 & Hn1 & Hc1) & Hs1 & _).
    apply (hashtable_set_entry_spec _ _ _ n1) in Es; try assumption; [|lia].
    inversion Es; subst. discriminate.
Qed.

Lemma set_succeeds_when_allocations_do_witness :
  reachable table_8
  /\ exists k' t',
       hashtable_set (Z.to_nat (capacity table_8 * 2)) table_8 "i" 9 true true
       = Ret (Some k', t').
Proof.
  split; [exact reachable_table_8|].
  apply (set_succeeds_when_allocations_do table_8 "i" 9 true).
  - exact reachable_table_8.
  - discriminate.
  - right. split; [reflexivity|]. vm_compute. reflexivity.
Defined.

(** ** First insertion of a key, and growth *)

Lemma expand_keys_from_old fuel t calloc_ok t' :
  wf t ->
  hashtable_expand fuel t calloc_ok = Ret (true, t') ->
  forall i k v, _entries t' !! i = Some (mkEntry (Some k) v) ->
    exists j v', _entries t !! j = Some (mkEntry (Some k) v').
Proof.
  intros Hwf E i k v Hi.
  apply hashtable_expand_inv in E; [|assumption].
  destruct E as (n & _ & _ & _ & _ & E).
  apply (expand_loop_keys
           (fun k => exists j v', _entries t !! j = Some (mkEntry (Some k) v')))
    in E.
  - exact (E i _ k Hi eq_refl).
  - intros j [ek ev] k0 Hj Hk. simpl in Hk. subst ek. eauto.
  - apply keys_within_calloc.
Qed.

Lemma before_insert_holds fuel t calloc_ok t1 key :
  wf t -> before_insert fuel t calloc_ok t1 ->
  holds_key (_entries t1) key -> holds_key (_entries t) key.
Proof.
  intros Hwf [[_ E]|[_ ->]] Hk; [|assumption].
  destruct Hk as (i & k & v & Hi & Heq).
  destruct (expand_keys_from_old _ _ _ _ Hwf E _ _ _ Hi) as (j & v' & Hj).
  exists j, k, v'. auto.
Qed.

(** X8: if a reachable table holds no key equal to [key], and [set] returns
    a key pointer that compares equal to [key], then the returned key is the
    copy of [key], the length is one higher, and [get] of [key] on the
    resulting table returns the value just set, whether or not the call
    resized. *)
Theorem first_insertion_round_trip (fuel fuel' : nat) (t : HashTable)
    (key : string) (value : ptr) (calloc_ok strdup_ok : bool) (k' : string)
    (t' : HashTable) :
  reachable t ->
  ~ holds_key (_entries t) key ->
  hashtable_set fuel t key value calloc_ok strdup_ok = Ret (Some k', t') ->
  strcmp key k' = 0 ->
  k' = cstr key
  /\ hashtable_length t' = hashtable_length t + 1
  /\ hashtable_get (S fuel') t' key = Ret value.
Proof.
  intros Hr Hnew H Heq. pose proof (reachable_wf t Hr) as Hwf.
  destruct (hashtable_set_inv _ _ _ _ _ _ _ _ Hwf H)
    as [(_ & Hn & _)|[(_ & _ & _ & Hn & _)|(Hv & t1 & es & pl & Hb & Es & ->)]];
    try discriminate.
  destruct (before_insert_wf _ _ _ _ Hwf Hb)
    as ((n & Hn & Hc) & Hs & Hlen & Hroom & Hocc).
  pose proof (pow2_bounds n Hn) as Hbd.
  assert (Hnew1 : ~ holds_key (_entries t1) key).
  { intros Hk. apply Hnew. eapply before_insert_holds; eauto. }
  assert (Hc63 : capacity t1 <= 2 ^ 63) by lia.
  pose proof (home_range (capacity t1) n key ltac:(lia) Hc) as Hhome.
  unfold hashtable_set_entry in Es.
  change (Z.land (djb2_hash key) (wrap64 (capacity t1 - 1)))
    with (home (capacity t1) key) in Es.
  destruct (set_entry_loop fuel (_entries t1) (capacity t1) key value
              (home (capacity t1) key)) as [r| |] eqn:E; try discriminate.
  pose proof (set_entry_loop_spec _ _ _ _ _ _ _ Hs Hc63 Hhome E) as Hspec.
  apply (set_entry_loop_run _ _ _ _ _ Hs Hc63 _ 0) in E;
    [|lia|assumption| |intros d' Hd'; lia].
  2:{ rewrite Z.add_0_r, Z.mod_small by lia. reflexivity. }
  destruct r as [i|ek es1]; simpl in Es.
  - destruct Hspec as (Hi & v0 & Hslot).
    destruct E as (d & Hd & Hpos & Hrun).
    assert (d = 0) as ->.
    { destruct (Z.eq_dec d 0) as [|Hd0]; [assumption|]. exfalso.
      destruct (Hrun 0) as (k0 & v1 & Hs0 & Hk0); [lia|].
      apply Hnew1. exists (Z.to_nat ((home (capacity t1) key + 0)
                                      mod capacity t1)), k0, v1. auto. }
    rewrite Z.add_0_r, Z.mod_small in Hpos by lia. subst i.
    apply lookup_lt_Some in Hslot.
    destruct strdup_ok; simpl in Es; [|discriminate].
    injection Es as <- <- <-.
    split; [reflexivity|]. split.
    + unfold hashtable_length. simpl. rewrite wrap64_small by lia. lia.
    + unfold hashtable_get. simpl.
      change (Z.land (djb2_hash key) (wrap64 (capacity t1 - 1)))
        with (home (capacity t1) key).
      rewrite list_lookup_insert_eq by assumption.
      rewrite strcmp_cstr_r, strcmp_refl. reflexivity.
  - destruct Hspec as (i & v0 & Hi & Hslot & Hne & _).
    injection Es as <- _ _. contradiction.
Qed.

Lemma first_insertion_round_trip_witness :
  reachable table_8
  /\ ~ holds_key (_entries table_8) "i"
  /\ exists t',
       hashtable_set 32 table_8 "i" 9 true true = Ret (Some "i"%string, t')
       /\ capacity t' = 32
       /\ hashtable_get 1 t' "i" = Ret 9.
Proof.
  assert (Hnew : ~ holds_key (_entries table_8) "i").
  { intros (i & k & v & Hi & Heq).
    do 16 (destruct i as [|i];
           [vm_compute in Hi;
            first [discriminate
                  |injection Hi as <- <-; vm_compute in Heq; discriminate]|]).
    vm_compute in Hi. discriminate. }
  split; [exact reachable_table_8|]. split; [exact Hnew|].
  eexists. split; [vm_compute; reflexivity|]. split; [reflexivity|].
  eapply (first_insertion_round_trip 32 0 table_8 "i" 9 true true "i").
  - exact reachable_table_8.
  - exact Hnew.
  - vm_compute. reflexivity.
  - reflexivity.
Defined.

(** X9: [hashtable_expand] on a reachable table returns within
    [capacity * 2] loop steps per probe; it succeeds exactly when the new
    array is allocated and the doubled capacity fits in 64 bits; on failure
    the table is unchanged; on success the capacity is doubled, the length
    is unchanged, the new array has [capacity] slots, holds no more occupied
    slots than the old one, and every key in it is a key of the old array. *)
Theorem expand_doubles_or_leaves (t : HashTable) (calloc_ok : bool) :
  reachable t ->
  (exists r,
      hashtable_expand (Z.to_nat (capacity t * 2)) t calloc_ok = Ret r)
  /\ (forall fuel b t',
        hashtable_expand fuel t calloc_ok = Ret (b, t') ->
        (b = true <-> calloc_ok = true /\ capacity t < 2 ^ 63)
        /\ (b = false -> t' = t)
        /\ (b = true ->
            capacity t' = capacity t * 2
            /\ length t' = length t
            /\ Z.of_nat (Datatypes.length (_entries t')) = capacity t'
            /\ (n_occupied (_entries t') <= n_occupied (_entries t))%nat
            /\ forall i k v,
                 _entries t' !! i = Some (mkEntry (Some k) v) ->
                 exists j v', _entries t !! j = Some (mkEntry (Some k) v'))).
Proof.
  intros Hr. pose proof (reachable_wf t Hr) as Hwf.
  pose proof Hwf as [(n & Hn & Hcap) Hsize [Hl0 Hload] Hocc].
  pose proof (pow2_bounds n Hn) as Hb.
  split.
  - apply hashtable_expand_terminates; [assumption|lia].
  - intros fuel b t' E.
    pose proof (hashtable_expand_spec _ _ _ _ _ Hwf E) as Hspec.
    destruct b.
    + destruct Hspec as (Ecap & Elen & Ecok & (n1 & Hn1 & Epow) & Esize & Eocc).
      pose proof (pow2_bounds n1 Hn1).
      split; [split; [intros _; split; [assumption|lia]|reflexivity]|].
      split; [discriminate|]. intros _.
      repeat split; try assumption.
      eapply expand_keys_from_old; eauto.
    + destruct Hspec as [-> Hfail].
      split; [|split; [reflexivity|discriminate]].
      split; [discriminate|]. intros [-> Hlt]. exfalso.
      destruct Hfail as [Hfail|Hfail]; [|discriminate].
      rewrite wrap64_small in Hfail by lia. lia.
Qed.

Lemma expand_doubles_or_leaves_witness :
  reachable table_8
  /\ exists r, hashtable_expand (Z.to_nat (capacity table_8 * 2)) table_8 true
               = Ret r.
Proof.
  split; [exact reachable_table_8|].
  destruct (expand_doubles_or_leaves table_8 true reachable_table_8)
    as [H _].
  exact H.
Defined.

(** ** Iteration *)

Lemma elem_of_occupied_pairs entries p :
  p ∈ occupied_pairs entries <->
  exists i k v, entries !! i = Some (mkEntry (Some k) v) /\ p = (Some k, v).
Proof.
  induction entries as [|[ek ev] rest IH]; simpl.
  - split; [intros H; apply elem_of_nil in H; contradiction|].
    intros (i & k & v & Hi & _). discriminate.
  - unfold occupied. simpl. destruct ek as [ek|].
    + rewrite elem_of_cons, IH. split.
      * intros [->|(i & k & v & Hi & ->)].
        -- exists O, ek, ev. auto.
        -- exists (S i), k, v. auto.
      * intros (i & k & v & Hi & ->). destruct i as [|i].
        -- injection Hi as -> ->. auto.
        -- right. exists i, k, v. auto.
    + rewrite IH. split.
      * intros (i & k & v & Hi & ->). exists (S i), k, v. auto.
      * intros (i & k & v & Hi & ->). destruct i as [|i]; [discriminate|].
        exists i, k, v. auto.
Qed.

(** X10: iterating a reachable table from a new iterator, with a budget of
    [capacity + 1] steps, yields the key and value of every occupied slot,
    in slot order and once per slot, then reports the end; the number of
    pairs is at most [length]. *)
Theorem iteration_lists_occupied_slots (t : HashTable)
    (key0 : option string) (value0 : ptr) :
  reachable t ->
  iterate (S (Z.to_nat (capacity t))) t
    (hashtable_create_iterator t key0 value0)
  = Ret (occupied_pairs (_entries t))
  /\ Z.of_nat (Datatypes.length (occupied_pairs (_entries t)))
     <= hashtable_length t
  /\ (forall p, p ∈ occupied_pairs (_entries t) <->
        exists i k v, _entries t !! i = Some (mkEntry (Some k) v)
                      /\ p = (Some k, v)).
Proof.
  intros Hr. destruct (iterate_reachable t key0 value0 Hr) as [Hit Hlen].
  pose proof (reachable_wf t Hr) as [_ _ _ Hocc].
  split; [exact Hit|]. split.
  - rewrite Hlen. exact Hocc.
  - intros p. apply elem_of_occupied_pairs.
Qed.

Lemma iteration_lists_occupied_slots_witness :
  reachable table_8
  /\ iterate 17 table_8 (hashtable_create_iterator table_8 None NULL)
     = Ret [(Some "a", 1); (Some "b", 2); (Some "c", 3); (Some "d", 4);
            (Some "e", 5); (Some "f", 6); (Some "g", 7); (Some "h", 8)]%string.
Proof.
  split; [exact reachable_table_8|].
  destruct (iteration_lists_occupied_slots table_8 None NULL
              reachable_table_8) as [H _].
  exact H.
Defined.

(** X11: [hashtable_next] on a reachable table, from an iterator with a
    non-negative index.  When it returns true, the iterator holds the key
    and value of the first occupied slot at or after the old index, and its
    index is one past that slot.  When it returns false, no slot at or after
    the old index is occupied, the iterator's key and value are untouched,
    its index is at least [capacity], and every later call returns false
    again without changing the iterator. *)
Theorem next_reports_first_occupied_slot (t : HashTable) (fuel : nat)
    (it : hashtable_iterator) (b : bool) (it' : hashtable_iterator) :
  reachable t -> 0 <= _index it ->
  hashtable_next fuel t it = Ret (b, it') ->
  (forall j, _index it <= j < Z.min (_index it' - (if b then 1 else 0))
                                   (capacity t) ->
     exists v, _entries t !! Z.to_nat j = Some (mkEntry None v))
  /\ if b then
       _index it < _index it' <= capacity t
       /\ exists k,
            it_key it' = Some k
            /\ _entries t !! Z.to_nat (_index it' - 1)
               = Some (mkEntry (Some k) (it_value it'))
     else
       capacity t <= _index it'
       /\ it_key it' = it_key it /\ it_value it' = it_value it
       /\ forall fuel', hashtable_next (S fuel') t it' = Ret (false, it').
Proof.
  intros Hr. pose proof (reachable_wf t Hr) as [(n & Hn & Hcap) Hsize _ _].
  pose proof (pow2_bounds n Hn) as Hb. clear Hr.
  revert it. induction fuel as [|fuel IH]; intros it Hi H; simpl in H;
    [discriminate|].
  destruct (Z.ltb_spec (_index it) (capacity t)) as [Hlt|Hge].
  - destruct (_entries t !! Z.to_nat (_index it)) as [[ek ev]|] eqn:E;
      [|discriminate].
    simpl in H. rewrite wrap64_small in H by lia.
    destruct ek as [ek|].
    + injection H as <- <-. simpl. split; [intros j Hj; lia|].
      split; [lia|]. exists ek. split; [reflexivity|].
      replace (_index it + 1 - 1) with (_index it) by lia. exact E.
    + apply IH in H; [|simpl; lia]. simpl in H.
      destruct H as [Hempty Hrest]. split.
      * intros j Hj. destruct (Z.eq_dec j (_index it)) as [->|Hne]; [eauto|].
        apply Hempty. lia.
      * destruct b; [|exact Hrest].
        destruct Hrest as [Hidx Hk]. split; [lia|exact Hk].
  - injection H as <- <-. split; [intros j Hj; lia|].
    split; [lia|]. split; [reflexivity|]. split; [reflexivity|].
    intros fuel'. simpl.
    destruct (Z.ltb_spec (_index it) (capacity t)); [lia|reflexivity].
Qed.

Lemma next_reports_first_occupied_slot_witness :
  reachable table_8
  /\ exists it',
       hashtable_next 17 table_8 (mkIterator None NULL 0) = Ret (true, it')
       /\ _index it' = 7
       /\ _entries table_8 !! Z.to_nat (_index it' - 1)
          = Some (mkEntry (it_key it') (it_value it')).
Proof.
  split; [exact reachable_table_8|].
  eexists. split; [vm_compute; reflexivity|]. split; [reflexivity|].
  destruct (next_reports_first_occupied_slot table_8 17
              (mkIterator None NULL 0) true (mkIterator (Some "a"%string) 1 7)
              reachable_table_8) as (_ & _ & k & Hk & Hslot).
  - simpl. lia.
  - vm_compute. reflexivity.
  - simpl in Hk. injection Hk as <-. exact Hslot.
Defined.

(** ** Empty tables and absent keys *)

(** X12: a table returned by [hashtable_create] has capacity 16 and length
    0, [get] returns [NULL] for every key after a single probe, and
    iteration yields nothing. *)
Theorem created_table_is_empty (malloc_ok calloc_ok : bool) (t : HashTable) :
  hashtable_create malloc_ok calloc_ok = Some t ->
  capacity t = 16 /\ hashtable_length t = 0
  /\ (forall fuel key, hashtable_get (S fuel) t key = Ret NULL)
  /\ (forall key0 value0,
        iterate 17 t (hashtable_create_iterator t key0 value0) = Ret []).
Proof.
  intros H. apply hashtable_create_spec in H. destruct H as [-> _].
  split; [reflexivity|]. split; [reflexivity|]. split.
  - intros fuel key. unfold hashtable_get.
    pose proof (home_range 16 4 key ltac:(lia) eq_refl) as Hhome.
    change (Z.land (djb2_hash key) (wrap64 (capacity fresh - 1)))
      with (home 16 key).
    simpl. unfold calloc.
    rewrite lookup_replicate_2; [reflexivity|].
    unfold INITIAL_CAPACITY. lia.
  - intros key0 value0. reflexivity.
Qed.

Lemma created_table_is_empty_witness :
  hashtable_create true true = Some fresh
  /\ hashtable_get 1 fresh "federer" = Ret NULL.
Proof.
  split; [reflexivity|].
  destruct (created_table_is_empty true true fresh eq_refl)
    as (_ & _ & Hget & _).
  apply Hget.
Defined.

Lemma set_all_reachable_from fuel kvs : forall ks t rets t',
  reachable_from ks t ->
  set_all fuel t kvs = Ret (rets, t') ->
  Forall (fun r : option string => r <> None) rets ->
  reachable_from (rev (map fst kvs) ++ ks) t'.
Proof.
  induction kvs as [|[k v] rest IH]; intros ks t rets t' Hr H Hok;
    simpl in H.
  - injection H as <- <-. exact Hr.
  - destruct (hashtable_set fuel t k v true true) as [[r t1]| |] eqn:E;
      try discriminate.
    simpl in H.
    destruct (set_all fuel t1 rest) as [[rs t2]| |] eqn:E2; try discriminate.
    simpl in H. injection H as <- <-.
    inversion Hok as [|r0 rs0 Hr0 Hrs]; subst.
    destruct r as [k'|]; [|congruence].
    simpl. rewrite <- app_assoc. simpl.
    eapply IH; [|exact E2|exact Hrs].
    eapply from_set_ok; eauto.
Qed.

Lemma reachable_from_table_8 : reachable_from keys_of_table_8 table_8.
Proof.
  eapply (set_all_reachable_from 16 eight_distinct [] fresh).
  - apply from_create. reflexivity.
  - exact table_8_sets.
  - repeat (constructor; [discriminate|]). constructor.
Defined.

Lemma table_8_never_set_z :
  forall k, k ∈ keys_of_table_8 -> strcmp "z" k <> 0.
Proof.
  intros k Hk. unfold keys_of_table_8 in Hk.
  repeat (apply elem_of_cons in Hk; destruct Hk as [->|Hk];
          [vm_compute; discriminate|]).
  apply elem_of_nil in Hk. contradiction.
Defined.

(** X13: if [key] compares unequal to the key of every [set] call that
    returned a key pointer, then on the resulting table [get] of [key]
    returns [NULL], no slot holds a key equal to [key], and iteration yields
    no pair whose key equals [key]. *)
Theorem never_set_key_is_absent (ks : list string) (t : HashTable)
    (key : string) :
  reachable_from ks t ->
  (forall k, k ∈ ks -> strcmp key k <> 0) ->
  hashtable_get (Z.to_nat (capacity t)) t key = Ret NULL
  /\ ~ holds_key (_entries t) key
  /\ (forall key0 value0 ps,
        iterate (S (Z.to_nat (capacity t))) t
          (hashtable_create_iterator t key0 value0) = Ret ps ->
        forall k v, (Some k, v) ∈ ps -> strcmp key k <> 0).
Proof.
  intros Hr Hnew.
  assert (Habs : ~ holds_key (_entries t) key).
  { intros (i & k & v & Hi & Heq).
    destruct (reachable_from_keys ks t Hr i _ k Hi eq_refl) as (k0 & Hin & ->).
    rewrite strcmp_cstr_r in Heq. exact (Hnew k0 Hin Heq). }
  split; [apply (get_never_set ks); assumption|]. split; [exact Habs|].
  intros key0 value0 ps Hit k v Hin Heq.
  destruct (iterate_reachable t key0 value0
              (reachable_from_reachable ks t Hr)) as [Hit' _].
  rewrite Hit' in Hit. injection Hit as <-.
  apply elem_of_occupied_pairs in Hin.
  destruct Hin as (i & k1 & v1 & Hi & Hp). injection Hp as -> ->.
  apply Habs. exists i, k1, v1. auto.
Qed.

Lemma never_set_key_is_absent_witness :
  reachable_from keys_of_table_8 table_8
  /\ (forall k, k ∈ keys_of_table_8 -> strcmp "z" k <> 0)
  /\ hashtable_get (Z.to_nat (capacity table_8)) table_8 "z" = Ret NULL.
Proof.
  split; [exact reachable_from_table_8|].
  split; [exact table_8_never_set_z|].
  destruct (never_set_key_is_absent keys_of_table_8 table_8 "z"
              reachable_from_table_8 table_8_never_set_z) as [H _].
  exact H.
Defined.

(** X14: every pair that iteration yields on a reachable table has a
    non-null key that is the copy of the key of some [set] call that
    returned a key pointer, a non-null value, and a key that [get] finds. *)
Theorem iterated_keys_were_set_and_are_found (ks : list string)
    (t : HashTable) (key0 : option string) (value0 : ptr) :
  reachable_from ks t ->
  exists ps,
    iterate (S (Z.to_nat (capacity t))) t
      (hashtable_create_iterator t key0 value0) = Ret ps
    /\ forall p, p ∈ ps ->
         exists k, fst p = Some k
           /\ snd p <> NULL
           /\ (exists k0, k0 ∈ ks /\ k = cstr k0)
           /\ exists v, hashtable_get (Z.to_nat (capacity t)) t k = Ret v
                        /\ v <> NULL.
Proof.
  intros Hr. pose proof (reachable_from_reachable ks t Hr) as Hreach.
  destruct (iterate_reachable t key0 value0 Hreach) as [Hit _].
  exists (occupied_pairs (_entries t)). split; [exact Hit|].
  intros p Hp. apply elem_of_occupied_pairs in Hp.
  destruct Hp as (i & k & v & Hi & ->). exists k. simpl.
  split; [reflexivity|]. split.
  - exact (proj1 (reachable_slots_ok t Hreach _ _ Hi)).
  - split.
    + exact (reachable_from_keys ks t Hr i _ k Hi eq_refl).
    + pose proof (reachable_wf t Hreach) as Hwf.
      assert (Hcap : exists m, Z.to_nat (capacity t) = S m).
      { destruct Hwf as [(n & Hn & Hcap) _ _ _].
        pose proof (pow2_bounds n Hn).
        exists (Z.to_nat (capacity t) - 1)%nat. lia. }
      destruct Hcap as [m ->].
      apply get_present; auto using reachable_slots_ok, reachable_runs_ok.
      exists i, k, v. split; [assumption|apply strcmp_refl].
Qed.

Lemma iterated_keys_were_set_and_are_found_witness :
  reachable_from keys_of_table_8 table_8
  /\ exists ps,
       iterate (S (Z.to_nat (capacity table_8))) table_8
         (hashtable_create_iterator table_8 None NULL) = Ret ps
       /\ forall p, p ∈ ps -> exists k, fst p = Some k /\ snd p <> NULL.
Proof.
  split; [exact reachable_from_table_8|].
  destruct (iterated_keys_were_set_and_are_found keys_of_table_8 table_8
              None NULL reachable_from_table_8) as (ps & Hit & Hps).
  exists ps. split; [exact Hit|].
  intros p Hp. destruct (Hps p Hp) as (k & Hk & Hv & _). eauto.
Defined.

(** ** C7: failing calls of set *)


Lemma assert_passes ndebug fuel t key value calloc_ok strdup_ok :
  value <> NULL ->
  hashtable_set_assert ndebug fuel t key value calloc_ok strdup_ok
  = Passed (hashtable_set fuel t key value calloc_ok strdup_ok).
Proof.
  intros Hv. unfold hashtable_set_assert.
  destruct (Z.eqb_spec value NULL); [contradiction|].
  rewrite andb_false_r. reflexivity.
Qed.

Lemma failed_strdup_returns_null fuel t key value calloc_ok t1 i :
  value <> NULL ->
  before_insert fuel t calloc_ok t1 ->
  set_entry_loop fuel (_entries t1) (capacity t1) key value
    (home (capacity t1) key) = Ret (AtEmpty i) ->
  hashtable_set fuel t key value calloc_ok false = Ret (None, t1).
Proof.
  intros Hv Hb Hloop. unfold hashtable_set.
  destruct (Z.eqb_spec value NULL); [contradiction|].
  assert (Hins : hashtable_set_entry fuel (_entries t1) (capacity t1) key
                   value (Some (length t1)) false
                 = Ret (None, _entries t1, Some (length t1))).
  { unfold hashtable_set_entry.
    change (Z.land (djb2_hash key) (wrap64 (capacity t1 - 1)))
      with (home (capacity t1) key).
    rewrite Hloop. reflexivity. }
  destruct Hb as [[Hfull E]|[Hroom ->]].
  - destruct (Z.leb_spec (capacity t / 2) (length t)); [|lia].
    rewrite E. simpl. rewrite Hins. simpl. destruct t1; reflexivity.
  - destruct (Z.leb_spec (capacity t / 2) (length t)); [lia|].
    simpl. rewrite Hins. simpl. destruct t; reflexivity.
Qed.

Lemma null_return_reason fuel t key value calloc_ok strdup_ok t' :
  wf t ->
  hashtable_set fuel t key value calloc_ok strdup_ok = Ret (None, t') ->
  (value = NULL /\ t' = t)
  \/ (value <> NULL /\ capacity t / 2 <= length t
      /\ (wrap64 (capacity t * 2) < capacity t \/ calloc_ok = false)
      /\ t' = t)
  \/ (value <> NULL /\ strdup_ok = false
      /\ before_insert fuel t calloc_ok t'
      /\ exists i,
           set_entry_loop fuel (_entries t') (capacity t') key value
             (home (capacity t') key) = Ret (AtEmpty i)).
Proof.
  intros Hwf H.
  destruct (hashtable_set_inv _ _ _ _ _ _ _ _ Hwf H)
    as [(Hv & _ & ->)|[(Hv & Hfull & E & _ & ->)
                      |(Hv & t1 & es & pl & Hb & Es & ->)]].
  - auto.
  - right. left. apply hashtable_expand_spec in E; [|assumption].
    destruct E as [_ E]. auto.
  - right. right. unfold hashtable_set_entry in Es.
    change (Z.land (djb2_hash key) (wrap64 (capacity t1 - 1)))
      with (home (capacity t1) key) in Es.
    destruct (set_entry_loop fuel (_entries t1) (capacity t1) key value
                (home (capacity t1) key)) as [r| |] eqn:E; try discriminate.
    destruct r as [i|ek es1]; simpl in Es; [|discriminate].
    destruct strdup_ok; simpl in Es; [discriminate|].
    injection Es as <- <-. simpl.
    replace (mkHashTable (capacity t1) (length t1) (_entries t1)) with t1
      by (destruct t1; reflexivity).
    repeat split; eauto.
Qed.


